(** * SphinxUpdater: the binlog-to-index pipeline of [predb_indexer.py]

    A shallow embedding of the Python script that follows the MySQL
    binlog of the [releases] table and mirrors every row change into a
    Sphinx real-time index, together with the properties of its
    event-to-mutation translation, of its index writer and of its
    startup sequence.

    Python dictionaries are finite maps ([gmap]) from column names to
    Python values; coroutines run one after the other, so [async]
    functions are plain computations in a state-and-exception monad
    whose state holds the index store, the trace of the commands handed
    to the index writer, the log and the module-level globals. *)

From Stdlib Require Import ZArith String List Bool Lia SpecFloat.
From stdpp Require Import base option list gmap strings fin_maps.

Local Open Scope string_scope.
Local Open Scope list_scope.
Local Open Scope Z_scope.

(** ** Python values found in a binlog row *)

Module Py.

(** The values [pymysqlreplication] puts in a row for the columns the
    script reads: [None] for SQL NULL, integers, floats (IEEE numbers,
    as [spec_float]) and strings. *)
Inductive pyval : Type :=
| PNone
| PInt (z : Z)
| PFloat (f : spec_float)
| PStr (s : string).

(** Exceptions deriving from Python's [Exception]. [DatabaseError] stands
    for whatever the database driver raises. *)
Inductive exn : Type :=
| KeyError (key : string)
| TypeError
| IndexError
| DatabaseError (code : Z).

Inductive result (A : Type) : Type :=
| Ok (a : A)
| Raise (e : exn).
Arguments Ok {A} a.
Arguments Raise {A} e.

(** Exact comparison of a float with an integer, as Python performs it;
    [None] when the float is a NaN. *)
Definition float_compare_int (f : spec_float) (n : Z) : option comparison :=
  match f with
  | S754_zero _ => Some (0 ?= n)
  | S754_infinity false => Some Gt
  | S754_infinity true => Some Lt
  | S754_nan => None
  | S754_finite s m e =>
      let v := if s then Z.neg m else Z.pos m in
      if 0 <=? e then Some (v * 2 ^ e ?= n) else Some (v ?= n * 2 ^ (- e))
  end.

(** [bool(v)] *)
Definition truthy (v : pyval) : bool :=
  match v with
  | PNone => false
  | PInt z => negb (z =? 0)
  | PFloat (S754_zero _) => false
  | PFloat _ => true
  | PStr EmptyString => false
  | PStr _ => true
  end.

(** [a or b] *)
Definition or_ (a b : pyval) : pyval := if truthy a then a else b.

(** [v == n] for an integer literal [n] *)
Definition eq_int (v : pyval) (n : Z) : bool :=
  match v with
  | PInt z => z =? n
  | PFloat f => match float_compare_int f n with Some Eq => true | _ => false end
  | PNone | PStr _ => false
  end.

(** [v < n] for an integer [n]; ordering [None] or a string against an
    integer raises [TypeError]. *)
Definition lt_int (v : pyval) (n : Z) : result bool :=
  match v with
  | PInt z => Ok (z <? n)
  | PFloat f => Ok match float_compare_int f n with Some Lt => true | _ => false end
  | PNone | PStr _ => Raise TypeError
  end.

(** The float literal [0.0] *)
Definition float_zero : pyval := PFloat (S754_zero false).

(** A [dict] with string keys. *)
Abbreviation dict := (gmap string pyval).

(** [d.get(k)] and [d.get(k, dflt)] *)
Definition get (d : dict) (k : string) : pyval := default PNone (d !! k).
Definition get_or (d : dict) (k : string) (dflt : pyval) : pyval := default dflt (d !! k).

(** [d[k]] *)
Definition getitem (d : dict) (k : string) : result pyval :=
  match d !! k with
  | Some v => Ok v
  | None => Raise (KeyError k)
  end.

End Py.
Export Py.

(** ** Binlog events *)

Inductive event_class : Type := DeleteRowsEvent | WriteRowsEvent | UpdateRowsEvent.

(** An element of [binlogevent.rows]: a dictionary with the key
    ["values"] (delete and write events) or with the keys
    ["before_values"] and ["after_values"] (update events). *)
Inductive binlog_row : Type :=
| RowValues (values : dict)
| RowUpdate (before_values after_values : dict).

Record binlog_event : Type := BinlogEvent {
  ev_class : event_class;
  table : string;
  rows : list binlog_row
}.

(** [row[k]] for the three keys the script reads *)
Definition row_getitem (row : binlog_row) (k : string) : result dict :=
  match row with
  | RowValues v => if String.eqb k "values" then Ok v else Raise (KeyError k)
  | RowUpdate b a =>
      if String.eqb k "before_values" then Ok b
      else if String.eqb k "after_values" then Ok a
      else Raise (KeyError k)
  end.

(** ** Commands and log lines *)

(** The three statements sent to Sphinx: [REPLACE INTO releases_rt VALUES
    (...)] with nine placeholders, [DELETE FROM releases_rt WHERE id = %s]
    and the probe [SELECT COUNT( * ) FROM releases_rt LIMIT 1]. *)
Inductive query : Type := ReplaceInto | DeleteFrom | SelectCount.

Definition command : Type := query * list pyval.

Inductive level : Type := INFO | WARNING | ERROR.

Inductive message : Type :=
| SphinxPoolInitialized
| SphinxCommandFailed (q : query) (e : exn)
| ReplacedRelease (id name : pyval)
| DeletedRelease (id : pyval)
| StartingBinlogStreamReader
| ErrorProcessingBinlogEvent (e : exn)
| EventContext (ev : binlog_event)
| RowContext (row : binlog_row)
| FetchingGroups
| FailedToFetchGroups
| CachedGroups (n : nat) (max_id : Z)
| FetchingSections
| FailedToFetchSections
| CachedSections (n : nat) (max_id : Z)
| ConnectionTestSuccessful (count : pyval)
| ConnectionTestFailed (e : exn)
| StartingUpdater
| FailedToConnect
| FailedToCache
| InitializationComplete
| FatalError (e : exn).

Definition log_entry : Type := level * message.

(** ** The indexer, over any index store

    [B] is the state of the Sphinx server and [cur_execute] is what
    [cur.execute(query, params)] does to it on a pooled connection: it
    either raises or yields the new state and the result set. The
    module-level constant [last_known_insert] is a parameter. *)

Section Indexer.

Context {B : Type}.
Variable cur_execute : query → list pyval → B → exn + (B * list (list pyval)).
Variable last_known_insert : Z.

(** The state the script runs in: the index store, the commands handed
    to [execute_sphinx_command] so far (oldest first), the log, and the
    four module-level caches. *)
Record world : Type := World {
  sphinx : B;
  issued : list command;
  log : list log_entry;
  groups : gmap Z string;
  group_max_id_known : Z;
  sections : gmap Z string;
  section_max_id_known : Z
}.

Definition py (A : Type) : Type := world → result A * world.

Definition ret {A} (a : A) : py A := λ w, (Ok a, w).
Definition raise {A} (e : exn) : py A := λ w, (Raise e, w).
Definition bind {A C} (m : py A) (k : A → py C) : py C :=
  λ w, match m w with
       | (Ok a, w') => k a w'
       | (Raise e, w') => (Raise e, w')
       end.

Notation "x <- m ;; k" := (bind m (λ x, k))
  (at level 100, m at next level, k at level 200, right associativity).
Notation "m ;;; k" := (bind m (λ _, k))
  (at level 100, k at level 200, right associativity).

(** An expression that may raise, evaluated in the current state *)
Definition lift {A} (r : result A) : py A := λ w, (r, w).

(** [try: body / except Exception as e: handler e] *)
Definition try_except {A} (body : py A) (handler : exn → py A) : py A :=
  λ w, match body w with
       | (Ok a, w') => (Ok a, w')
       | (Raise e, w') => handler e w'
       end.

(** Assignments to one component of the state *)
Definition with_sphinx (b : B) (w : world) : world :=
  World b (issued w) (log w) (groups w) (group_max_id_known w)
        (sections w) (section_max_id_known w).
Definition with_issued (cs : list command) (w : world) : world :=
  World (sphinx w) cs (log w) (groups w) (group_max_id_known w)
        (sections w) (section_max_id_known w).
Definition with_log (l : list log_entry) (w : world) : world :=
  World (sphinx w) (issued w) l (groups w) (group_max_id_known w)
        (sections w) (section_max_id_known w).

Definition logger (l : level) (m : message) : py unit :=
  λ w, (Ok tt, with_log (log w ++ [(l, m)]) w).

(** [await cur.execute(query, params)] on a connection of the pool *)
Definition cursor_execute (q : query) (params : list pyval) : py (list (list pyval)) :=
  λ w, match cur_execute q params (sphinx w) with
       | inl e => (Raise e, w)
       | inr (b, rs) => (Ok rs, with_sphinx b w)
       end.

(** Entering [execute_sphinx_command] records the command in the trace. *)
Definition record_command (c : command) : py unit :=
  λ w, (Ok tt, with_issued (issued w ++ [c]) w).

(** *** The index writer *)

Definition execute_sphinx_command (q : query) (params : list pyval) : py bool :=
  record_command (q, params) ;;;
  try_except
    (cursor_execute q params ;;; ret true)
    (λ e, logger ERROR (SphinxCommandFailed q e) ;;; ret false).

Definition add_release_to_sphinx (release_data : dict) : py bool :=
  id <- lift (getitem release_data "id") ;;
  let params :=
    [ id;
      get_or release_data "releasename" (PStr "");
      get_or release_data "releasename" (PStr "");
      or_ (get release_data "groupid") (PInt 0);
      or_ (get release_data "sectionid") (PInt 0);
      or_ (get release_data "status") (PInt 0);
      or_ (get release_data "pretime") (PInt 0);
      or_ (get release_data "size") float_zero;
      or_ (get release_data "files") (PInt 0) ] in
  success <- execute_sphinx_command ReplaceInto params ;;
  (if success : bool then
     id' <- lift (getitem release_data "id") ;;
     name <- lift (getitem release_data "releasename") ;;
     logger INFO (ReplacedRelease id' name)
   else ret tt) ;;;
  ret success.

Definition remove_release_from_sphinx (release_id : pyval) : py bool :=
  success <- execute_sphinx_command DeleteFrom [release_id] ;;
  (if success : bool then logger INFO (DeletedRelease release_id) else ret tt) ;;;
  ret success.

(** *** The binlog loop *)

(** The dictionary literal [release_data = {'id': values['id'], ...}],
    written three times in [main] with the same entries. Python
    evaluates the entries in order, so a missing ['id'] is reported
    before a missing ['releasename']. *)
Definition release_data_of (values : dict) : result dict :=
  match getitem values "id" with
  | Raise e => Raise e
  | Ok id =>
      match getitem values "releasename" with
      | Raise e => Raise e
      | Ok name =>
          Ok (<["size" := get_or values "size" float_zero]>
              (<["files" := get_or values "files" (PInt 0)]>
              (<["pretime" := get_or values "pretime" (PInt 0)]>
              (<["status" := get_or values "status" (PInt 0)]>
              (<["sectionid" := get_or values "sectionid" (PInt 0)]>
              (<["groupid" := get_or values "groupid" (PInt 0)]>
              (<["releasename" := name]>
              (<["id" := id]> ∅))))))))
      end
  end.

(** The body of the [try] block, for one row of one event *)
Definition process_row (ev : binlog_event) (row : binlog_row) : py unit :=
  match ev_class ev with
  | DeleteRowsEvent =>
      values <- lift (row_getitem row "values") ;;
      release_id <- lift (getitem values "id") ;;
      remove_release_from_sphinx release_id ;;;
      ret tt
  | WriteRowsEvent =>
      values <- lift (row_getitem row "values") ;;
      id <- lift (getitem values "id") ;;
      too_low <- lift (lt_int id last_known_insert) ;;
      if too_low : bool then ret tt
      else if eq_int (get_or values "status" (PInt 0)) 4 then ret tt
      else
        release_data <- lift (release_data_of values) ;;
        add_release_to_sphinx release_data ;;;
        ret tt
  | UpdateRowsEvent =>
      before_values <- lift (row_getitem row "before_values") ;;
      after_values <- lift (row_getitem row "after_values") ;;
      if eq_int (get after_values "status") 4
         && negb (eq_int (get before_values "status") 4)
      then
        id <- lift (getitem after_values "id") ;;
        remove_release_from_sphinx id ;;;
        ret tt
      else if eq_int (get before_values "status") 4
              && negb (eq_int (get after_values "status") 4)
      then
        release_data <- lift (release_data_of after_values) ;;
        add_release_to_sphinx release_data ;;;
        ret tt
      else if negb (eq_int (get_or after_values "status" (PInt 0)) 4)
      then
        release_data <- lift (release_data_of after_values) ;;
        add_release_to_sphinx release_data ;;;
        ret tt
      else ret tt
  end.

(** The [try ... except Exception] around it *)
Definition handle_row (ev : binlog_event) (row : binlog_row) : py unit :=
  try_except (process_row ev row)
    (λ e, logger ERROR (ErrorProcessingBinlogEvent e) ;;;
          logger ERROR (EventContext ev) ;;;
          logger ERROR (RowContext row)).

(** A [for] loop: an exception leaving the body leaves the loop. *)
Fixpoint for_each {A} (body : A → py unit) (xs : list A) : py unit :=
  match xs with
  | [] => ret tt
  | x :: xs' => body x ;;; for_each body xs'
  end.

Definition handle_event (ev : binlog_event) : py unit :=
  if negb (String.eqb (table ev) "releases") then ret tt
  else for_each (handle_row ev) (rows ev).

(** [main], on the events the stream reader delivers before it is closed *)
Definition main (stream : list binlog_event) : py unit :=
  logger INFO StartingBinlogStreamReader ;;;
  for_each handle_event stream.

(** *** Reference caches and startup

    [create_pool] is the outcome of opening the Sphinx pool;
    [select_groups] and [select_sections] are the outcomes of the two
    [SELECT]s on the source database (the rows, or the exception the
    driver raises). *)

Section Startup.

Variable create_pool : result unit.
Variable select_groups select_sections : result (list (Z * string)).

Definition init_sphinx_pool : py unit :=
  lift create_pool ;;;
  logger INFO SphinxPoolInitialized.

(** [dict(rows)]: a later row overrides an earlier one with the same key. *)
Definition dict_of_rows (rows : list (Z * string)) : gmap Z string :=
  fold_left (λ m kv, <[kv.1 := kv.2]> m) rows ∅.

(** [max(d.keys()) if d else 0] *)
Definition max_key_or_0 (d : gmap Z string) : Z :=
  match (map_to_list d).*1 with
  | [] => 0
  | k :: ks => fold_left Z.max ks k
  end.

Definition set_groups (d : gmap Z string) (mx : Z) : py unit :=
  λ w, (Ok tt, World (sphinx w) (issued w) (log w) d mx
                     (sections w) (section_max_id_known w)).

Definition set_sections (d : gmap Z string) (mx : Z) : py unit :=
  λ w, (Ok tt, World (sphinx w) (issued w) (log w) (groups w)
                     (group_max_id_known w) d mx).

Definition fetch_all_groups : py unit :=
  logger INFO FetchingGroups ;;;
  rows <- lift select_groups ;;
  if (length rows <? 1000)%nat then logger WARNING FailedToFetchGroups
  else
    let d := dict_of_rows rows in
    set_groups d (max_key_or_0 d) ;;;
    logger INFO (CachedGroups (size d) (max_key_or_0 d)).

Definition fetch_all_sections : py unit :=
  logger INFO FetchingSections ;;;
  rows <- lift select_sections ;;
  if (length rows <? 40)%nat then logger WARNING FailedToFetchSections
  else
    let d := dict_of_rows rows in
    set_sections d (max_key_or_0 d) ;;;
    logger INFO (CachedSections (size d) (max_key_or_0 d)).

(** The probe; [fetchone()] is the first row of the result set, or
    [None], on which [result[0]] raises. It does not go through
    [execute_sphinx_command]. *)
Definition test_sphinx_connection : py bool :=
  try_except
    (rs <- cursor_execute SelectCount [] ;;
     match rs with
     | [] => raise TypeError
     | [] :: _ => raise IndexError
     | (count :: _) :: _ =>
         logger INFO (ConnectionTestSuccessful count) ;;; ret true
     end)
    (λ e, logger ERROR (ConnectionTestFailed e) ;;; ret false).

(** Which [return] of [startup] was taken; the last one is reached
    through [main]. *)
Inductive startup_exit : Type :=
| SphinxUnreachable
| CachesIncomplete
| AfterMain.

Definition caches_loaded : py bool :=
  λ w, (Ok (negb (bool_decide (groups w = ∅) || bool_decide (sections w = ∅))), w).

Definition startup (stream : list binlog_event) : py startup_exit :=
  logger INFO StartingUpdater ;;;
  init_sphinx_pool ;;;
  reachable <- test_sphinx_connection ;;
  if negb reachable then
    logger ERROR FailedToConnect ;;; ret SphinxUnreachable
  else
    fetch_all_groups ;;;
    fetch_all_sections ;;;
    loaded <- caches_loaded ;;
    if negb loaded then
      logger ERROR FailedToCache ;;; ret CachesIncomplete
    else
      logger INFO InitializationComplete ;;;
      main stream ;;;
      ret AfterMain.

(** The [try ... except Exception] of the [__main__] block *)
Definition run_script (stream : list binlog_event) : py (option startup_exit) :=
  try_except
    (x <- startup stream ;; ret (Some x))
    (λ e, logger ERROR (FatalError e) ;;; ret None).

(** The state when the module has been loaded: nothing issued, nothing
    logged, both caches empty. *)
Definition initial_world (b : B) : world := World b [] [] ∅ 0 ∅ 0.

End Startup.

End Indexer.

Arguments world : clear implicits.
Arguments py : clear implicits.

(** ** The index store as a map from document id to document *)

Module MapStore.

Abbreviation index := (gmap Z (list pyval)).

(** Modelled from the spec: the Sphinx server that executes the
    statements is not part of the repository. On the real-time index
    seen as a finite map from the document id to the stored tuple,
    [REPLACE] is replace-by-key (insert if absent, full overwrite if
    present), [DELETE] removes the document with that key if present,
    and the probe returns the number of documents. A statement whose id
    is not an integer, or with the wrong number of values, is rejected
    by the server. *)
Definition cur_execute (q : query) (params : list pyval) (ix : index)
  : exn + (index * list (list pyval)) :=
  match q, params with
  | ReplaceInto, PInt k :: _ =>
      if (length params =? 9)%nat then inr (<[k := params]> ix, [])
      else inl (DatabaseError 1064)
  | DeleteFrom, [PInt k] => inr (delete k ix, [])
  | SelectCount, [] => inr (ix, [[PInt (Z.of_nat (size ix))]])
  | _, _ => inl (DatabaseError 1064)
  end.

End MapStore.

(** The value of [last_known_insert] in the script *)
Definition configured_last_known_insert : Z := 14130526.

(** ** Vocabulary of the properties *)

(** The type of [cur_execute] *)
Abbreviation executor B := (query → list pyval → B → exn + (B * list (list pyval))).

(** The status of a snapshot, read as 0 when the column is missing, and
    the test for the sentinel 4. *)
Definition row_status (values : dict) : pyval :=
  match values !! "status" with
  | Some s => s
  | None => PInt 0
  end.

Definition logically_deleted (values : dict) : bool := eq_int (row_status values) 4.

(** The value of an optional column as it is written to the index: the
    snapshot's value, or the default when the column is missing or holds
    NULL, zero or the empty string. *)
Definition column_or (values : dict) (k : string) (dflt : pyval) : pyval :=
  match values !! k with
  | Some v => if truthy v then v else dflt
  | None => dflt
  end.

(** The tuple of a [REPLACE]: the key, the name twice (attribute and
    full-text field), then the six optional columns. *)
Definition replace_tuple (values : dict) (id name : pyval) : list pyval :=
  [ id; name; name;
    column_or values "groupid" (PInt 0);
    column_or values "sectionid" (PInt 0);
    column_or values "status" (PInt 0);
    column_or values "pretime" (PInt 0);
    column_or values "size" float_zero;
    column_or values "files" (PInt 0) ].

(** The probe succeeds when the [SELECT] runs and returns a count. *)
Definition probe_ok {B : Type}
    (cur_execute : query → list pyval → B → exn + (B * list (list pyval))) (b : B) : bool :=
  match cur_execute SelectCount [] b with
  | inr (_, (_ :: _) :: _) => true
  | _ => false
  end.

(** [main] has been entered when its first log line has been written. *)
Definition entered_consume_loop {B : Type} (w : world B) : Prop :=
  In (INFO, StartingBinlogStreamReader) (log w).

(** What one command handed to [execute_sphinx_command] does to the
    state, with the line logged when it succeeds: the success flag and
    the state afterwards. *)
Definition perform {B : Type}
    (cur_execute : query → list pyval → B → exn + (B * list (list pyval)))
    (c : command) (done : message) (w : world B) : bool * world B :=
  match cur_execute c.1 c.2 (sphinx w) with
  | inl e =>
      (false,
       with_log (log w ++ [(ERROR, SphinxCommandFailed c.1 e)])
                (with_issued (issued w ++ [c]) w))
  | inr (b, _) =>
      (true,
       with_log (log w ++ [(INFO, done)])
                (with_sphinx b (with_issued (issued w ++ [c]) w)))
  end.

(** The three lines logged when a row is given up *)
Definition skipped {B : Type} (e : exn) (ev : binlog_event) (row : binlog_row)
    (w : world B) : world B :=
  with_log (log w ++ [ (ERROR, ErrorProcessingBinlogEvent e);
                       (ERROR, EventContext ev);
                       (ERROR, RowContext row) ]) w.

(** A computation that only ever appends to the log and leaves the two
    reference caches as they are *)
Definition log_grows {B A : Type} (m : py B A) : Prop :=
  ∀ w, (∃ l, log (m w).2 = log w ++ l)
       ∧ groups (m w).2 = groups w
       ∧ sections (m w).2 = sections w.

(** A computation that always returns, whatever the state *)
Definition never_raises {B A : Type} (m : py B A) : Prop :=
  ∀ w, ∃ a, (m w).1 = Ok a.

(** ** The decision taken on a row

    What [main] decides for one row, apart from the state: one
    mutation handed to the writer, a silent discard, or the exception
    that makes the handler give the row up. The translation facts below
    show that the body of the loop is this decision followed by at most
    one call of the writer. *)

Inductive mutation : Type :=
| Upsert (id name : pyval) (tuple : list pyval)
| Remove (id : pyval).

Inductive verdict : Type :=
| Issue (m : mutation)
| Discard
| GiveUp (e : exn).

Definition command_of (m : mutation) : command :=
  match m with
  | Upsert _ _ tuple => (ReplaceInto, tuple)
  | Remove id => (DeleteFrom, [id])
  end.

Definition done_line (m : mutation) : message :=
  match m with
  | Upsert id name _ => ReplacedRelease id name
  | Remove id => DeletedRelease id
  end.

Definition upsert_of (values : dict) : verdict :=
  match values !! "id", values !! "releasename" with
  | Some id, Some name => Issue (Upsert id name (replace_tuple values id name))
  | Some _, None => GiveUp (KeyError "releasename")
  | None, _ => GiveUp (KeyError "id")
  end.

Definition translate (T : Z) (ev : binlog_event) (row : binlog_row) : verdict :=
  match ev_class ev, row with
  | DeleteRowsEvent, RowValues values =>
      match values !! "id" with
      | Some id => Issue (Remove id)
      | None => GiveUp (KeyError "id")
      end
  | WriteRowsEvent, RowValues values =>
      match values !! "id" with
      | None => GiveUp (KeyError "id")
      | Some id =>
          match lt_int id T with
          | Raise e => GiveUp e
          | Ok true => Discard
          | Ok false =>
              if logically_deleted values then Discard else upsert_of values
          end
      end
  | UpdateRowsEvent, RowUpdate before after =>
      if logically_deleted after then
        if logically_deleted before then Discard
        else match after !! "id" with
             | Some id => Issue (Remove id)
             | None => GiveUp (KeyError "id")
             end
      else upsert_of after
  | (DeleteRowsEvent | WriteRowsEvent), RowUpdate _ _ => GiveUp (KeyError "values")
  | UpdateRowsEvent, RowValues _ => GiveUp (KeyError "before_values")
  end.

(** The state after a verdict has been carried out *)
Definition enact {B : Type} (cur_execute : executor B)
    (ev : binlog_event) (row : binlog_row) (v : verdict) (w : world B) : world B :=
  match v with
  | Issue m => (perform cur_execute (command_of m) (done_line m) w).2
  | Discard => w
  | GiveUp e => skipped e ev row w
  end.

(** The mutations a stream asks for, in order *)
Definition mutations_of_rows (T : Z) (ev : binlog_event) (rs : list binlog_row)
  : list mutation :=
  flat_map (λ row, match translate T ev row with Issue m => [m] | _ => [] end) rs.

Definition mutations_of_event (T : Z) (ev : binlog_event) : list mutation :=
  if String.eqb (table ev) "releases" then mutations_of_rows T ev (rows ev) else [].

Definition mutations (T : Z) (stream : list binlog_event) : list mutation :=
  flat_map (mutations_of_event T) stream.

(** The index after one command, on the store seen as a map: a rejected
    command leaves it as it is. *)
Definition store_after (c : command) (ix : MapStore.index) : MapStore.index :=
  match MapStore.cur_execute c.1 c.2 ix with
  | inr (ix', _) => ix'
  | inl _ => ix
  end.

(** The events of the monitored table *)
Definition monitored (ev : binlog_event) : bool := String.eqb (table ev) "releases".

(** ** Sample rows and events

    Rows of the [releases] table as they appear in the binlog, used to
    run the definitions on concrete inputs. *)

Module Sample.

Definition threshold : Z := configured_last_known_insert.

(** A complete, active row above the threshold; its size is 1.5. *)
Definition full_row : dict :=
  <["id" := PInt 14130600]>
  (<["releasename" := PStr "Some.Release.2024-GRP"]>
  (<["groupid" := PInt 12]>
  (<["sectionid" := PInt 3]>
  (<["status" := PInt 1]>
  (<["pretime" := PInt 1700000000]>
  (<["size" := PFloat (S754_finite false 3 (-1))]>
  (<["files" := PInt 42]> ∅))))))).

(** The same release marked as deleted *)
Definition deleted_row : dict := <["status" := PInt 4]> full_row.


(** A row from before the bulk load *)
Definition old_row : dict := <["id" := PInt 100]> full_row.

(** A row that carries only its key and an active status *)
Definition nameless_row : dict :=
  <["id" := PInt 14130600]> (<["status" := PInt 0]> ∅).


(** A row with its key and name only *)
Definition bare_row : dict :=
  <["id" := PInt 14130601]> (<["releasename" := PStr "Bare-GRP"]> ∅).

Definition write_event (values : dict) : binlog_event :=
  BinlogEvent WriteRowsEvent "releases" [RowValues values].
Definition delete_event (values : dict) : binlog_event :=
  BinlogEvent DeleteRowsEvent "releases" [RowValues values].
Definition update_event (before after : dict) : binlog_event :=
  BinlogEvent UpdateRowsEvent "releases" [RowUpdate before after].

(** The module just loaded, in front of an empty index *)
Definition fresh : world MapStore.index := initial_world ∅.

(** A Sphinx server that refuses every statement *)
Definition unreachable (q : query) (params : list pyval) (b : unit)
  : exn + (unit * list (list pyval)) := inl (DatabaseError 2003).

(** The scenario of the specification, with threshold 60: a release is
    inserted, then marked deleted, and an old release is replayed. *)
Definition scenario : list binlog_event :=
  let r100 : dict := <["id" := PInt 100]> (<["releasename" := PStr "R100-GRP"]>
                      (<["status" := PInt 0]> ∅)) in
  let r50 : dict := <["id" := PInt 50]> (<["releasename" := PStr "R50-GRP"]>
                     (<["status" := PInt 0]> ∅)) in
  [ write_event r100;
    update_event r100 (<["status" := PInt 4]> r100);
    write_event r50 ].

(** Reference tables of a given number of rows *)
Definition table_of (n : nat) : list (Z * string) :=
  map (λ i, (Z.of_nat i, "name")) (seq 0 n).

End Sample.

(** ** Facts about values and dictionaries *)

Section ValueFacts.

Lemma eq_int_get_status (d : dict) :
  eq_int (get d "status") 4 = logically_deleted d.
Proof.
  unfold logically_deleted, row_status, get.
  destruct (d !! "status") as [v|]; reflexivity.
Qed.

Lemma eq_int_get_or_status (d : dict) :
  eq_int (get_or d "status" (PInt 0)) 4 = logically_deleted d.
Proof.
  unfold logically_deleted, row_status, get_or.
  destruct (d !! "status") as [v|]; reflexivity.
Qed.

Lemma or_get_column (d : dict) (k : string) (dflt : pyval) :
  or_ (get d k) dflt = column_or d k dflt.
Proof.
  unfold or_, get, column_or.
  destruct (d !! k) as [v|]; reflexivity.
Qed.


Lemma lt_int_not_below (k n : Z) : n ≤ k → lt_int (PInt k) n = Ok false.
Proof. intros H. cbn. f_equal. now apply Z.ltb_ge. Qed.

Lemma column_or_copied (rd values : dict) (k : string) (d0 dflt : pyval) :
  rd !! k = Some (get_or values k d0) →
  truthy d0 = false →
  column_or rd k dflt = column_or values k dflt.
Proof.
  intros Hk Hd0. unfold column_or, get_or in *. rewrite Hk.
  destruct (values !! k) as [v|]; cbn; [reflexivity | now rewrite Hd0].
Qed.

(** The record built from a snapshot with both required columns *)
Lemma release_data_of_Ok (values : dict) (id name : pyval) :
  values !! "id" = Some id →
  values !! "releasename" = Some name →
  ∃ rd, release_data_of values = Ok rd
        ∧ rd !! "id" = Some id
        ∧ rd !! "releasename" = Some name
        ∧ replace_tuple rd id name = replace_tuple values id name.
Proof.
  intros Hid Hname. unfold release_data_of, getitem. rewrite Hid, Hname.
  eexists. split; [reflexivity|].
  split; [by simplify_map_eq|].
  split; [by simplify_map_eq|].
  unfold replace_tuple.
  rewrite (column_or_copied _ values "groupid" (PInt 0)) by (by simplify_map_eq).
  rewrite (column_or_copied _ values "sectionid" (PInt 0)) by (by simplify_map_eq).
  rewrite (column_or_copied _ values "status" (PInt 0)) by (by simplify_map_eq).
  rewrite (column_or_copied _ values "pretime" (PInt 0)) by (by simplify_map_eq).
  rewrite (column_or_copied _ values "size" float_zero) by (by simplify_map_eq).
  rewrite (column_or_copied _ values "files" (PInt 0)) by (by simplify_map_eq).
  reflexivity.
Qed.

Lemma release_data_of_no_name (values : dict) (id : pyval) :
  values !! "id" = Some id →
  values !! "releasename" = None →
  release_data_of values = Raise (KeyError "releasename").
Proof.
  intros Hid Hname. unfold release_data_of, getitem. now rewrite Hid, Hname.
Qed.

Lemma release_data_of_no_id (values : dict) :
  values !! "id" = None →
  release_data_of values = Raise (KeyError "id").
Proof.
  intros Hid. unfold release_data_of, getitem. now rewrite Hid.
Qed.

End ValueFacts.

(** ** Facts about the index writer *)

Section WriterFacts.

Context {B : Type}.
Variable cur_execute : query → list pyval → B → exn + (B * list (list pyval)).

(** The two ways out of [execute_sphinx_command], both by [return] *)
Lemma execute_sphinx_command_eq (q : query) (params : list pyval) (w : world B) :
  execute_sphinx_command cur_execute q params w =
  match cur_execute q params (sphinx w) with
  | inl e =>
      (Ok false,
       with_log (log w ++ [(ERROR, SphinxCommandFailed q e)])
                (with_issued (issued w ++ [(q, params)]) w))
  | inr (b, _) =>
      (Ok true, with_sphinx b (with_issued (issued w ++ [(q, params)]) w))
  end.
Proof.
  unfold execute_sphinx_command, bind, try_except, record_command, cursor_execute.
  cbn. destruct (cur_execute q params (sphinx w)) as [e | [b rs]]; reflexivity.
Qed.

Lemma perform_issued (c : command) (done : message) (w : world B) :
  issued (perform cur_execute c done w).2 = issued w ++ [c].
Proof.
  unfold perform. destruct (cur_execute _ _ _) as [e | [b rs]]; reflexivity.
Qed.

Lemma remove_release_from_sphinx_eq (id : pyval) (w : world B) :
  remove_release_from_sphinx cur_execute id w =
  let r := perform cur_execute (DeleteFrom, [id]) (DeletedRelease id) w in
  (Ok r.1, r.2).
Proof.
  unfold remove_release_from_sphinx, bind at 1, perform.
  rewrite execute_sphinx_command_eq. cbn [fst snd].
  destruct (cur_execute _ _ _) as [e | [b rs]]; reflexivity.
Qed.

Lemma add_release_to_sphinx_eq (rd : dict) (id name : pyval) (w : world B) :
  rd !! "id" = Some id →
  rd !! "releasename" = Some name →
  add_release_to_sphinx cur_execute rd w =
  let r := perform cur_execute (ReplaceInto, replace_tuple rd id name)
                   (ReplacedRelease id name) w in
  (Ok r.1, r.2).
Proof.
  intros Hid Hname. unfold add_release_to_sphinx, bind at 1, lift, getitem, perform.
  rewrite Hid. unfold bind at 1. rewrite execute_sphinx_command_eq.
  rewrite !or_get_column. unfold get_or. rewrite Hname. cbn [default fst snd].
  fold (replace_tuple rd id name).
  destruct (cur_execute _ _ _) as [e | [b rs]]; reflexivity.
Qed.

(** With the key alone, the command issued is already determined. *)
Lemma add_release_to_sphinx_issued (rd : dict) (id : pyval) (w : world B) :
  rd !! "id" = Some id →
  issued (add_release_to_sphinx cur_execute rd w).2 =
  issued w ++ [(ReplaceInto, replace_tuple rd id (get_or rd "releasename" (PStr "")))].
Proof.
  intros Hid. unfold add_release_to_sphinx, bind at 1, lift, getitem.
  rewrite Hid. unfold bind at 1. rewrite execute_sphinx_command_eq.
  rewrite !or_get_column.
  fold (replace_tuple rd id (get_or rd "releasename" (PStr ""))).
  destruct (cur_execute _ _ _) as [e | [b rs]]; [reflexivity|].
  unfold bind. cbn. destruct (rd !! "releasename"); reflexivity.
Qed.

(** With the key alone, what reaches the store is determined as well:
    the store is left as one execution of that [REPLACE] leaves it, or
    as it was when the execution raises. *)
Lemma add_release_to_sphinx_store (rd : dict) (id : pyval) (w : world B) :
  rd !! "id" = Some id →
  sphinx (add_release_to_sphinx cur_execute rd w).2 =
  match cur_execute ReplaceInto
          (replace_tuple rd id (get_or rd "releasename" (PStr ""))) (sphinx w) with
  | inr (b, _) => b
  | inl _ => sphinx w
  end.
Proof.
  intros Hid. unfold add_release_to_sphinx, bind at 1, lift, getitem.
  rewrite Hid. unfold bind at 1. rewrite execute_sphinx_command_eq.
  rewrite !or_get_column.
  fold (replace_tuple rd id (get_or rd "releasename" (PStr ""))).
  destruct (cur_execute _ _ _) as [e | [b rs]]; [reflexivity|].
  unfold bind. cbn. destruct (rd !! "releasename"); reflexivity.
Qed.

Lemma add_release_to_sphinx_no_id (rd : dict) (w : world B) :
  rd !! "id" = None →
  add_release_to_sphinx cur_execute rd w = (Raise (KeyError "id"), w).
Proof.
  intros Hid. unfold add_release_to_sphinx, bind, lift, getitem. now rewrite Hid.
Qed.

End WriterFacts.

(** ** Facts about the translation of one row *)

Section DispatchFacts.

Context {B : Type}.
Variable cur_execute : query → list pyval → B → exn + (B * list (list pyval)).
Variable last_known_insert : Z.

Local Abbreviation process := (process_row cur_execute last_known_insert).
Local Abbreviation handle := (handle_row cur_execute last_known_insert).
Local Abbreviation performed := (perform cur_execute).

Ltac enter_row Hclass :=
  unfold process_row; rewrite Hclass;
  unfold bind at 1, lift at 1; cbn [row_getitem String.eqb Ascii.eqb Bool.eqb].

Lemma handle_row_returned ev row (w w' : world B) :
  process ev row w = (Ok tt, w') →
  handle ev row w = (Ok tt, w').
Proof. intros H. unfold handle_row, try_except. rewrite H. reflexivity. Qed.

Lemma handle_row_raised ev row e (w w' : world B) :
  process ev row w = (Raise e, w') →
  handle ev row w = (Ok tt, skipped e ev row w').
Proof.
  intros H. unfold handle_row, try_except. rewrite H.
  unfold bind, logger, skipped, with_log. cbn.
  now rewrite <- !app_assoc.
Qed.

Lemma process_row_delete ev values id (w : world B) :
  ev_class ev = DeleteRowsEvent →
  values !! "id" = Some id →
  process ev (RowValues values) w =
  (Ok tt, (performed (DeleteFrom, [id]) (DeletedRelease id) w).2).
Proof.
  intros Hc Hid. enter_row Hc.
  unfold bind, lift, getitem. rewrite Hid.
  now rewrite remove_release_from_sphinx_eq.
Qed.

Lemma process_row_no_id ev values (w : world B) :
  ev_class ev ≠ UpdateRowsEvent →
  values !! "id" = None →
  process ev (RowValues values) w = (Raise (KeyError "id"), w).
Proof.
  intros Hc Hid. unfold process_row.
  destruct (ev_class ev); [| |congruence];
    unfold bind, lift, getitem; cbn; now rewrite Hid.
Qed.

Lemma process_row_insert_below ev values id (w : world B) :
  ev_class ev = WriteRowsEvent →
  values !! "id" = Some id →
  lt_int id last_known_insert = Ok true →
  process ev (RowValues values) w = (Ok tt, w).
Proof.
  intros Hc Hid Hlt. enter_row Hc.
  unfold bind, lift, getitem. now rewrite Hid, Hlt.
Qed.

Lemma process_row_insert_deleted ev values id (w : world B) :
  ev_class ev = WriteRowsEvent →
  values !! "id" = Some id →
  lt_int id last_known_insert = Ok false →
  logically_deleted values = true →
  process ev (RowValues values) w = (Ok tt, w).
Proof.
  intros Hc Hid Hlt Hdel. enter_row Hc.
  unfold bind, lift, getitem. rewrite Hid, Hlt, eq_int_get_or_status, Hdel.
  reflexivity.
Qed.

Lemma process_row_insert_upsert ev values id name (w : world B) :
  ev_class ev = WriteRowsEvent →
  values !! "id" = Some id →
  lt_int id last_known_insert = Ok false →
  logically_deleted values = false →
  values !! "releasename" = Some name →
  process ev (RowValues values) w =
  (Ok tt, (performed (ReplaceInto, replace_tuple values id name)
                   (ReplacedRelease id name) w).2).
Proof.
  intros Hc Hid Hlt Hdel Hname. enter_row Hc.
  destruct (release_data_of_Ok values id name Hid Hname)
    as (rd & Hrd & Hrid & Hrname & Htuple).
  unfold bind, lift, getitem. rewrite Hid, Hlt, eq_int_get_or_status, Hdel, Hrd.
  rewrite (add_release_to_sphinx_eq cur_execute rd id name w Hrid Hrname).
  cbn [fst snd]. now rewrite Htuple.
Qed.

Lemma process_row_insert_no_name ev values id (w : world B) :
  ev_class ev = WriteRowsEvent →
  values !! "id" = Some id →
  lt_int id last_known_insert = Ok false →
  logically_deleted values = false →
  values !! "releasename" = None →
  process ev (RowValues values) w = (Raise (KeyError "releasename"), w).
Proof.
  intros Hc Hid Hlt Hdel Hname. enter_row Hc.
  unfold bind, lift. unfold getitem at 1.
  rewrite Hid, Hlt, eq_int_get_or_status, Hdel.
  now rewrite (release_data_of_no_name values id Hid Hname).
Qed.

Lemma process_row_update_into_deleted ev before after id (w : world B) :
  ev_class ev = UpdateRowsEvent →
  logically_deleted before = false →
  logically_deleted after = true →
  after !! "id" = Some id →
  process ev (RowUpdate before after) w =
  (Ok tt, (performed (DeleteFrom, [id]) (DeletedRelease id) w).2).
Proof.
  intros Hc Hb Ha Hid. enter_row Hc.
  unfold bind, lift, getitem. cbn [row_getitem String.eqb Ascii.eqb Bool.eqb].
  rewrite !eq_int_get_status, Ha, Hb, Hid. cbn [andb negb].
  now rewrite remove_release_from_sphinx_eq.
Qed.

Lemma process_row_update_stays_deleted ev before after (w : world B) :
  ev_class ev = UpdateRowsEvent →
  logically_deleted before = true →
  logically_deleted after = true →
  process ev (RowUpdate before after) w = (Ok tt, w).
Proof.
  intros Hc Hb Ha. enter_row Hc.
  unfold bind, lift. cbn [row_getitem String.eqb Ascii.eqb Bool.eqb].
  rewrite !eq_int_get_status, eq_int_get_or_status, Ha, Hb. reflexivity.
Qed.

(** Both upsert branches build the same record and hand it to the
    writer, so one statement covers "was 4, is not 4" and "was not 4,
    is not 4". *)
Lemma process_row_update_active ev before after (w : world B) :
  ev_class ev = UpdateRowsEvent →
  logically_deleted after = false →
  process ev (RowUpdate before after) w =
  match release_data_of after with
  | Ok rd =>
      match add_release_to_sphinx cur_execute rd w with
      | (Ok _, w') => (Ok tt, w')
      | (Raise e, w') => (Raise e, w')
      end
  | Raise e => (Raise e, w)
  end.
Proof.
  intros Hc Ha. enter_row Hc.
  unfold bind, lift. cbn [row_getitem String.eqb Ascii.eqb Bool.eqb].
  rewrite !eq_int_get_status, eq_int_get_or_status, Ha. cbn [andb negb].
  rewrite andb_true_r.
  destruct (logically_deleted before); cbn [negb];
    destruct (release_data_of after) as [rd|e]; try reflexivity;
    destruct (add_release_to_sphinx cur_execute rd w) as [[ok|e] w']; reflexivity.
Qed.


End DispatchFacts.

(** ** Facts about loops and the log *)

Section LoopFacts.

Context {B : Type}.
Variable cur_execute : query → list pyval → B → exn + (B * list (list pyval)).
Variable last_known_insert : Z.

Lemma for_each_never_raises {A} (body : A → py B unit) (xs : list A) :
  (∀ x, never_raises (body x)) → never_raises (for_each body xs).
Proof.
  intros Hbody. induction xs as [|x xs IH]; intros w; cbn.
  - now exists tt.
  - unfold bind. destruct (Hbody x w) as [[] Hx].
    destruct (body x w) as [r w1]; cbn in Hx; subst r. apply IH.
Qed.

Lemma for_each_cons {A} (body : A → py B unit) (x : A) (xs : list A) (w : world B) :
  never_raises (body x) →
  for_each body (x :: xs) w = for_each body xs (body x w).2.
Proof.
  intros Hx. cbn. unfold bind. destruct (Hx w) as [[] Hw].
  destruct (body x w) as [r w1]; cbn in Hw; now subst r.
Qed.

Lemma for_each_app {A} (body : A → py B unit) (xs ys : list A) (w : world B) :
  (∀ x, never_raises (body x)) →
  for_each body (xs ++ ys) w = for_each body ys (for_each body xs w).2.
Proof.
  intros Hbody. revert w. induction xs as [|x xs IH]; intros w.
  - reflexivity.
  - rewrite <- app_comm_cons, !for_each_cons by apply Hbody. apply IH.
Qed.

Lemma execute_sphinx_command_never_raises q params :
  never_raises (execute_sphinx_command cur_execute q params).
Proof.
  intros w. rewrite execute_sphinx_command_eq.
  destruct (cur_execute _ _ _) as [e | [b rs]]; eauto.
Qed.

Lemma handle_row_never_raises ev row :
  never_raises (handle_row cur_execute last_known_insert ev row).
Proof.
  intros w. exists tt. unfold handle_row, try_except.
  destruct (process_row _ _ ev row w) as [[[]|e] w']; reflexivity.
Qed.

Lemma handle_event_never_raises ev :
  never_raises (handle_event cur_execute last_known_insert ev).
Proof.
  unfold handle_event. destruct (negb _).
  - intros w. now exists tt.
  - apply for_each_never_raises. intros row. apply handle_row_never_raises.
Qed.

(** Events of other tables are passed over; an event of [releases] is
    handled row by row. *)
Lemma handle_event_other_table ev (w : world B) :
  table ev ≠ "releases" →
  handle_event cur_execute last_known_insert ev w = (Ok tt, w).
Proof.
  intros Ht. unfold handle_event.
  destruct (String.eqb_spec (table ev) "releases"); [contradiction | reflexivity].
Qed.

Lemma handle_event_releases ev :
  table ev = "releases" →
  handle_event cur_execute last_known_insert ev
  = for_each (handle_row cur_execute last_known_insert ev) (rows ev).
Proof. intros Ht. unfold handle_event. now rewrite Ht. Qed.

Lemma main_never_raises stream :
  never_raises (main cur_execute last_known_insert stream).
Proof.
  intros w. unfold main, bind, logger. cbn.
  apply for_each_never_raises. intros ev. apply handle_event_never_raises.
Qed.

(** *** The log only grows, the caches stay *)

Ltac log_unchanged :=
  intros w; split; [exists []; cbn; now rewrite app_nil_r | now split].

Lemma log_grows_ret {A} (a : A) : log_grows (B := B) (ret a).
Proof. log_unchanged. Qed.

Lemma log_grows_lift {A} (r : result A) : log_grows (B := B) (lift r).
Proof. log_unchanged. Qed.

Lemma log_grows_logger l m : log_grows (B := B) (logger l m).
Proof. intros w. split; [now exists [(l, m)] | now split]. Qed.

Lemma log_grows_record_command c : log_grows (B := B) (record_command c).
Proof. log_unchanged. Qed.

Lemma log_grows_cursor_execute q params :
  log_grows (cursor_execute cur_execute q params).
Proof.
  intros w. unfold cursor_execute.
  destruct (cur_execute _ _ _) as [e | [b rs]]; revert w; log_unchanged.
Qed.

Lemma log_grows_bind {A C} (m : py B A) (k : A → py B C) :
  log_grows m → (∀ a, log_grows (k a)) → log_grows (bind m k).
Proof.
  intros Hm Hk w. unfold bind. destruct (Hm w) as ([l1 H1] & Hg1 & Hs1).
  destruct (m w) as [[a|e] w1]; cbn in H1, Hg1, Hs1.
  - destruct (Hk a w1) as ([l2 H2] & Hg2 & Hs2). split; [|split; congruence].
    exists (l1 ++ l2). now rewrite H2, H1, app_assoc.
  - split; [now exists l1 | now split].
Qed.

Lemma log_grows_try_except {A} (body : py B A) (handler : exn → py B A) :
  log_grows body → (∀ e, log_grows (handler e)) → log_grows (try_except body handler).
Proof.
  intros Hm Hk w. unfold try_except. destruct (Hm w) as ([l1 H1] & Hg1 & Hs1).
  destruct (body w) as [[a|e] w1]; cbn in H1, Hg1, Hs1.
  - split; [now exists l1 | now split].
  - destruct (Hk e w1) as ([l2 H2] & Hg2 & Hs2). split; [|split; congruence].
    exists (l1 ++ l2). now rewrite H2, H1, app_assoc.
Qed.

Lemma log_grows_if {A} (b : bool) (m1 m2 : py B A) :
  log_grows m1 → log_grows m2 → log_grows (if b then m1 else m2).
Proof. now destruct b. Qed.

Lemma log_grows_for_each {A} (body : A → py B unit) (xs : list A) :
  (∀ x, log_grows (body x)) → log_grows (for_each body xs).
Proof.
  intros Hbody. induction xs as [|x xs IH]; cbn.
  - apply log_grows_ret.
  - apply log_grows_bind; auto.
Qed.

Create HintDb py_log discriminated.
#[local] Hint Resolve log_grows_ret log_grows_lift log_grows_logger
  log_grows_record_command log_grows_cursor_execute log_grows_bind
  log_grows_try_except log_grows_if log_grows_for_each : py_log.

Lemma log_grows_execute_sphinx_command q params :
  log_grows (execute_sphinx_command cur_execute q params).
Proof. unfold execute_sphinx_command. auto 10 with py_log. Qed.

#[local] Hint Resolve log_grows_execute_sphinx_command : py_log.

Lemma log_grows_add_release_to_sphinx rd :
  log_grows (add_release_to_sphinx cur_execute rd).
Proof. unfold add_release_to_sphinx. auto 12 with py_log. Qed.

Lemma log_grows_remove_release_from_sphinx id :
  log_grows (remove_release_from_sphinx cur_execute id).
Proof. unfold remove_release_from_sphinx. auto 10 with py_log. Qed.

#[local] Hint Resolve log_grows_add_release_to_sphinx
  log_grows_remove_release_from_sphinx : py_log.

Lemma log_grows_handle_row ev row :
  log_grows (handle_row cur_execute last_known_insert ev row).
Proof.
  unfold handle_row, process_row.
  destruct (ev_class ev); auto 20 with py_log.
Qed.

Lemma log_grows_handle_event ev :
  log_grows (handle_event cur_execute last_known_insert ev).
Proof.
  unfold handle_event. apply log_grows_if; [apply log_grows_ret|].
  apply log_grows_for_each. intros row. apply log_grows_handle_row.
Qed.

Lemma log_grows_main stream :
  log_grows (main cur_execute last_known_insert stream).
Proof.
  unfold main. apply log_grows_bind; [apply log_grows_logger|]. intros _.
  apply log_grows_for_each, log_grows_handle_event.
Qed.

(** Once [main] has logged its first line, the line stays in the log. *)
Lemma main_enters stream (w : world B) :
  entered_consume_loop (main cur_execute last_known_insert stream w).2.
Proof.
  unfold main, bind, logger. cbn.
  match goal with |- entered_consume_loop (?m ?w1).2 =>
    destruct (log_grows_for_each (handle_event cur_execute last_known_insert)
                stream log_grows_handle_event w1) as ([l Hl] & _)
  end.
  unfold entered_consume_loop. rewrite Hl. cbn.
  apply in_or_app. left. apply in_or_app. right. now left.
Qed.

End LoopFacts.

(** ** Facts about startup *)

Section StartupFacts.

Context {B : Type}.
Variable cur_execute : query → list pyval → B → exn + (B * list (list pyval)).
Variable last_known_insert : Z.
Variable create_pool : result unit.
Variable select_groups select_sections : result (list (Z * string)).

Lemma fold_insert_nonempty (rows : list (Z * string)) (m : gmap Z string) :
  m ≠ ∅ ∨ rows ≠ [] →
  fold_left (λ m kv, <[kv.1 := kv.2]> m) rows m ≠ ∅.
Proof.
  revert m. induction rows as [|kv rows IH]; intros m [Hm|Hrows]; cbn; try done.
  - apply IH. left. apply insert_non_empty.
  - apply IH. left. apply insert_non_empty.
Qed.

Lemma dict_of_rows_nonempty (rows : list (Z * string)) (n : nat) :
  (length rows <? S n)%nat = false → dict_of_rows rows ≠ ∅.
Proof.
  intros Hlen. apply fold_insert_nonempty. right. intros ->.
  cbn in Hlen. discriminate.
Qed.

(** The probe returns, with the verdict [probe_ok] gives on the store,
    and logs one line. *)
Lemma test_sphinx_connection_eq (w : world B) :
  ∃ b m,
    test_sphinx_connection cur_execute w =
    (Ok (probe_ok cur_execute (sphinx w)),
     with_log (log w ++ [m]) (with_sphinx b w))
    ∧ m ≠ (INFO, StartingBinlogStreamReader).
Proof.
  unfold test_sphinx_connection, try_except, bind, cursor_execute, probe_ok.
  destruct (cur_execute SelectCount [] (sphinx w))
    as [e | [b [|[|count r] rs]]]; cbn.
  - exists (sphinx w), (ERROR, ConnectionTestFailed e).
    split; [now destruct w | discriminate].
  - exists b, (ERROR, ConnectionTestFailed TypeError). now split.
  - exists b, (ERROR, ConnectionTestFailed IndexError). now split.
  - exists b, (INFO, ConnectionTestSuccessful count). now split.
Qed.

Ltac not_entered :=
  unfold entered_consume_loop; cbn; intuition congruence.

Ltac simp_world :=
  cbn -[main dict_of_rows max_key_or_0 bool_decide size Nat.ltb].

(** Every way through [startup] from the freshly loaded module *)
Lemma startup_initial (stream : list binlog_event) (b : B) :
  let r := startup cur_execute last_known_insert create_pool
                   select_groups select_sections stream (initial_world b) in
  let aborted := ¬ entered_consume_loop r.2 ∧ issued r.2 = [] in
  match create_pool with
  | Raise e => r.1 = Raise e ∧ aborted ∧ groups r.2 = ∅ ∧ sections r.2 = ∅
  | Ok _ =>
      if probe_ok cur_execute b then
        match select_groups with
        | Raise e => r.1 = Raise e ∧ aborted ∧ groups r.2 = ∅ ∧ sections r.2 = ∅
        | Ok grows =>
            groups r.2 = (if (length grows <? 1000)%nat then ∅ else dict_of_rows grows)
            ∧ match select_sections with
              | Raise e => r.1 = Raise e ∧ aborted ∧ sections r.2 = ∅
              | Ok srows =>
                  sections r.2 =
                    (if (length srows <? 40)%nat then ∅ else dict_of_rows srows)
                  ∧ if (length grows <? 1000)%nat || (length srows <? 40)%nat
                    then r.1 = Ok CachesIncomplete ∧ aborted
                    else r.1 = Ok AfterMain ∧ entered_consume_loop r.2
              end
        end
      else r.1 = Ok SphinxUnreachable ∧ aborted ∧ groups r.2 = ∅ ∧ sections r.2 = ∅
  end.
Proof.
  intros r aborted. subst r aborted.
  unfold startup, init_sphinx_pool, fetch_all_groups, fetch_all_sections,
    caches_loaded, set_groups, set_sections, bind, lift, logger, ret,
    initial_world.
  simp_world.
  destruct create_pool as [[]|e]; [|repeat split; not_entered].
  match goal with |- context [test_sphinx_connection _ ?w] =>
    destruct (test_sphinx_connection_eq w) as (b' & m & -> & Hm)
  end.
  simp_world.
  destruct (probe_ok cur_execute b); simp_world;
    [|repeat split; not_entered].
  destruct select_groups as [grows|e]; [|repeat split; not_entered].
  destruct select_sections as [srows|e].
  - destruct (length grows <? 1000)%nat eqn:Hg;
      destruct (length srows <? 40)%nat eqn:Hs; simp_world;
      try pose proof (dict_of_rows_nonempty _ _ Hg) as Hgne;
      try pose proof (dict_of_rows_nonempty _ _ Hs) as Hsne;
      repeat first
        [ rewrite (bool_decide_eq_true_2 (∅ =@{gmap Z string} ∅)) by reflexivity
        | rewrite (bool_decide_eq_false_2 (dict_of_rows grows = ∅)) by assumption
        | rewrite (bool_decide_eq_false_2 (dict_of_rows srows = ∅)) by assumption ];
      simp_world; try (repeat split; not_entered).
    (* both tables complete: [main] runs *)
    match goal with |- context [main _ _ stream ?w] =>
      destruct (main_never_raises cur_execute last_known_insert stream w)
        as [[] Hret];
      pose proof (main_enters cur_execute last_known_insert stream w) as Hent;
      destruct (log_grows_main cur_execute last_known_insert stream w)
        as (_ & Hgr & Hsec);
      destruct (main cur_execute last_known_insert stream w) as [r1 w1]
    end.
    cbn in Hret, Hent, Hgr, Hsec. subst r1. simp_world.
    repeat split; assumption.
  - destruct (length grows <? 1000)%nat eqn:Hg; simp_world;
      repeat split; not_entered.
Qed.

End StartupFacts.

(** ** The translation of events into index mutations *)









(** ** The index writer *)

(** C5: the Upsert hands exactly one command to the store, a [REPLACE]
    whose nine values are, in order, the id, the name, the name again
    (the full-text field), then groupid, sectionid, status, pretime,
    size and files, where a column that is missing or empty gives 0, or
    0.0 for the size. The eight fields of the record thus fill nine
    positions. The store receives that statement once: afterwards it is
    in the state one execution of the [REPLACE] with this tuple leaves,
    or in its previous state when the execution raises; on the index
    seen as a map the tuple is then the document under its id. *)
Theorem upsert_tuple_layout {B} (cur_execute : executor B)
    (release_data : dict) (id : pyval) (w : world B) :
  release_data !! "id" = Some id →
  let name := default (PStr "") (release_data !! "releasename") in
  let tuple :=
    [ id; name; name;
      column_or release_data "groupid" (PInt 0);
      column_or release_data "sectionid" (PInt 0);
      column_or release_data "status" (PInt 0);
      column_or release_data "pretime" (PInt 0);
      column_or release_data "size" float_zero;
      column_or release_data "files" (PInt 0) ] in
  issued (add_release_to_sphinx cur_execute release_data w).2
    = issued w ++ [(ReplaceInto, tuple)]
  ∧ sphinx (add_release_to_sphinx cur_execute release_data w).2
    = match cur_execute ReplaceInto tuple (sphinx w) with
      | inr (b, _) => b
      | inl _ => sphinx w
      end
  ∧ (∀ k (w0 : world MapStore.index),
       id = PInt k →
       sphinx (add_release_to_sphinx MapStore.cur_execute release_data w0).2
       = <[k := tuple]> (sphinx w0))
  ∧ length tuple = 9%nat
  ∧ (∀ col dflt v,
       release_data !! col = Some v → truthy v = true →
       column_or release_data col dflt = v)
  ∧ (∀ col dflt,
       release_data !! col = None
       ∨ release_data !! col = Some PNone
       ∨ release_data !! col = Some (PInt 0)
       ∨ release_data !! col = Some (PStr "") →
       column_or release_data col dflt = dflt).
Proof.
  intros Hid name tuple. split; [|split; [|split; [|split; [|split]]]].
  - apply (add_release_to_sphinx_issued cur_execute release_data id w Hid).
  - apply (add_release_to_sphinx_store cur_execute release_data id w Hid).
  - intros k w0 ->.
    rewrite (add_release_to_sphinx_store MapStore.cur_execute release_data
               (PInt k) w0 Hid).
    reflexivity.
  - reflexivity.
  - intros col dflt v Hcol Hv. unfold column_or. now rewrite Hcol, Hv.
  - intros col dflt [H | [H | [H | H]]]; unfold column_or; now rewrite H.
Qed.

Lemma upsert_tuple_layout_witness :
  Sample.bare_row !! "id" = Some (PInt 14130601)
  ∧ issued (add_release_to_sphinx MapStore.cur_execute Sample.bare_row Sample.fresh).2
    = [(ReplaceInto,
        [PInt 14130601; PStr "Bare-GRP"; PStr "Bare-GRP";
         PInt 0; PInt 0; PInt 0; PInt 0; PFloat (S754_zero false); PInt 0])]
  ∧ sphinx (add_release_to_sphinx MapStore.cur_execute Sample.bare_row Sample.fresh).2
    = {[ 14130601 :=
           [PInt 14130601; PStr "Bare-GRP"; PStr "Bare-GRP";
            PInt 0; PInt 0; PInt 0; PInt 0; PFloat (S754_zero false); PInt 0] ]}.
Proof.
  split; [reflexivity|].
  destruct (upsert_tuple_layout MapStore.cur_execute Sample.bare_row
              (PInt 14130601) Sample.fresh eq_refl) as (Hissued & _ & Hstore & _).
  split; [exact Hissued|].
  rewrite (Hstore 14130601 Sample.fresh eq_refl). reflexivity.
Defined.

(** C6: on the index seen as a map from id to document, an Upsert
    applied twice leaves the store as one application does, writing the
    document whether or not the key was there; a Delete applied twice
    leaves the store as one application does, leaves no document under
    the key whether or not there was one, and on an absent key it
    reports success and changes nothing. *)
Theorem writer_idempotent (release_data : dict) (release_id : pyval)
    (w : world MapStore.index) :
  let add := add_release_to_sphinx MapStore.cur_execute release_data in
  let remove := remove_release_from_sphinx MapStore.cur_execute release_id in
  sphinx (add (add w).2).2 = sphinx (add w).2
  ∧ sphinx (remove (remove w).2).2 = sphinx (remove w).2
  ∧ (∀ k, release_data !! "id" = Some (PInt k) →
       sphinx (add w).2
       = <[k := replace_tuple release_data (PInt k)
                  (get_or release_data "releasename" (PStr ""))]> (sphinx w))
  ∧ (∀ k, release_id = PInt k →
       (remove w).1 = Ok true
       ∧ sphinx (remove w).2 = delete k (sphinx w)
       ∧ sphinx (remove w).2 !! k = None
       ∧ (sphinx w !! k = None → sphinx (remove w).2 = sphinx w)
       ∧ (∀ doc, sphinx (remove (with_sphinx (<[k := doc]> (sphinx w)) w)).2
                 = sphinx (remove w).2)).
Proof.
  intros add remove.
  assert (Hadd : ∀ w0 : world MapStore.index,
            sphinx (add w0).2
            = match release_data !! "id" with
              | Some (PInt k) =>
                  <[k := replace_tuple release_data (PInt k)
                           (get_or release_data "releasename" (PStr ""))]> (sphinx w0)
              | _ => sphinx w0
              end).
  { intros w0. subst add. unfold add_release_to_sphinx, bind at 1, lift, getitem.
    destruct (release_data !! "id") as [id|]; [|reflexivity].
    unfold bind at 1. rewrite execute_sphinx_command_eq, !or_get_column.
    fold (replace_tuple release_data id (get_or release_data "releasename" (PStr ""))).
    destruct id as [|k|f|s]; cbn;
      destruct (release_data !! "releasename"); reflexivity. }
  assert (Hremove : ∀ w0 : world MapStore.index,
            remove w0
            = match release_id with
              | PInt k =>
                  (Ok true,
                   with_log (log w0 ++ [(INFO, DeletedRelease release_id)])
                     (with_sphinx (delete k (sphinx w0))
                        (with_issued (issued w0 ++ [(DeleteFrom, [release_id])]) w0)))
              | _ =>
                  (Ok false,
                   with_log (log w0 ++ [(ERROR, SphinxCommandFailed DeleteFrom
                                                  (DatabaseError 1064))])
                     (with_issued (issued w0 ++ [(DeleteFrom, [release_id])]) w0))
              end).
  { intros w0. subst remove. rewrite remove_release_from_sphinx_eq.
    destruct release_id; reflexivity. }
  split; [|split; [|split]].
  - rewrite !Hadd. destruct (release_data !! "id") as [[|k|f|s]|]; try reflexivity.
    apply insert_insert_eq.
  - rewrite !Hremove. destruct release_id as [|k|f|s]; try reflexivity.
    cbn. apply delete_delete_eq.
  - intros k Hk. now rewrite Hadd, Hk.
  - intros k ->. rewrite !Hremove. cbn. repeat split.
    + apply lookup_delete_eq.
    + apply delete_id.
    + intros doc. apply delete_insert_eq.
Qed.

Lemma writer_idempotent_witness :
  Sample.full_row !! "id" = Some (PInt 14130600)
  ∧ sphinx (remove_release_from_sphinx MapStore.cur_execute (PInt 14130600)
              Sample.fresh).2 !! 14130600 = None
  ∧ (remove_release_from_sphinx MapStore.cur_execute (PInt 14130600)
       Sample.fresh).1 = Ok true.
Proof.
  pose proof (writer_idempotent Sample.full_row (PInt 14130600) Sample.fresh)
    as (_ & _ & _ & Hremove).
  destruct (Hremove 14130600 eq_refl) as (Hok & _ & Hgone & _).
  split; [reflexivity|]. split; assumption.
Defined.

(** C4, as the script has it: after an Insert row with integer id [k]
    at or above the threshold, a status other than 4 and a releasename
    column, the index holds under [k] the document made of the id, the
    name (twice) and the six optional columns, each with the value of
    the snapshot, or with its default (0, and 0.0 for the size) when the
    column is missing or empty. *)
Theorem insert_creates_document (T : Z) (ev : binlog_event) (values : dict)
    (k : Z) (name : pyval) (w : world MapStore.index) :
  ev_class ev = WriteRowsEvent →
  values !! "id" = Some (PInt k) →
  T ≤ k →
  logically_deleted values = false →
  values !! "releasename" = Some name →
  sphinx (handle_row MapStore.cur_execute T ev (RowValues values) w).2 !! k
  = Some [ PInt k; name; name;
           column_or values "groupid" (PInt 0);
           column_or values "sectionid" (PInt 0);
           column_or values "status" (PInt 0);
           column_or values "pretime" (PInt 0);
           column_or values "size" float_zero;
           column_or values "files" (PInt 0) ]
  ∧ (∀ col dflt v,
       values !! col = Some v → truthy v = true → column_or values col dflt = v)
  ∧ (∀ col dflt, values !! col = None → column_or values col dflt = dflt).
Proof.
  intros Hc Hid Hk Hdel Hname.
  pose proof (lt_int_not_below k T Hk) as Hlt.
  split; [|split].
  - rewrite (handle_row_returned _ _ _ _ _ _
               (process_row_insert_upsert _ _ ev values _ name w Hc Hid Hlt Hdel Hname)).
    unfold perform, MapStore.cur_execute. cbn. apply lookup_insert_eq.
  - intros col dflt v Hcol Hv. unfold column_or. now rewrite Hcol, Hv.
  - intros col dflt Hcol. unfold column_or. now rewrite Hcol.
Qed.

Lemma insert_creates_document_witness :
  let ev := Sample.write_event Sample.bare_row in
  ev_class ev = WriteRowsEvent
  ∧ Sample.bare_row !! "id" = Some (PInt 14130601)
  ∧ Sample.threshold ≤ 14130601
  ∧ logically_deleted Sample.bare_row = false
  ∧ Sample.bare_row !! "releasename" = Some (PStr "Bare-GRP")
  ∧ sphinx (handle_row MapStore.cur_execute Sample.threshold ev
              (RowValues Sample.bare_row) Sample.fresh).2 !! 14130601
    = Some [PInt 14130601; PStr "Bare-GRP"; PStr "Bare-GRP";
            PInt 0; PInt 0; PInt 0; PInt 0; PFloat (S754_zero false); PInt 0].
Proof.
  intros ev.
  split; [reflexivity|]. split; [reflexivity|].
  split; [unfold Sample.threshold, configured_last_known_insert; lia|].
  split; [reflexivity|]. split; [reflexivity|].
  exact (proj1 (insert_creates_document Sample.threshold ev Sample.bare_row
                  14130601 (PStr "Bare-GRP") Sample.fresh eq_refl eq_refl
                  ltac:(unfold Sample.threshold, configured_last_known_insert; lia)
                  eq_refl eq_refl)).
Defined.

(** C4 as stated fails: an Insert row at or above the threshold, with
    status 0 and without the name, leaves no document under its id. *)
Lemma insert_without_name_no_document_counterexample :
  let values := Sample.nameless_row in
  let ev := Sample.write_event values in
  values !! "id" = Some (PInt 14130600)
  ∧ (14130600 <? Sample.threshold) = false
  ∧ logically_deleted values = false
  ∧ values !! "releasename" = None
  ∧ sphinx (handle_row MapStore.cur_execute Sample.threshold ev
              (RowValues values) Sample.fresh).2 !! 14130600 = None.
Proof. vm_compute. repeat split. Qed.

(** ** Containment of failures *)

(** C7: [execute_sphinx_command] returns whatever the store does, with
    [False] and one logged error when the store raises, and so do the
    two writer primitives on what [main] hands them; the handler around
    a row returns whatever the row does, with the error, the event and
    the row logged when its translation raises; hence [main] never
    raises and the rows and events after a failing one are processed
    from the state that one left. *)
Theorem failures_contained {B} (cur_execute : executor B) (T : Z) :
  (∀ q params (w : world B),
     ∃ ok, (execute_sphinx_command cur_execute q params w).1 = Ok ok
           ∧ ∀ e, cur_execute q params (sphinx w) = inl e →
                  ok = false
                  ∧ log (execute_sphinx_command cur_execute q params w).2
                    = log w ++ [(ERROR, SphinxCommandFailed q e)]
                  ∧ sphinx (execute_sphinx_command cur_execute q params w).2 = sphinx w)
  ∧ (∀ id (w : world B),
       ∃ ok, (remove_release_from_sphinx cur_execute id w).1 = Ok ok)
  ∧ (∀ values id name rd (w : world B),
       values !! "id" = Some id → values !! "releasename" = Some name →
       release_data_of values = Ok rd →
       ∃ ok, (add_release_to_sphinx cur_execute rd w).1 = Ok ok)
  ∧ (∀ ev row (w : world B),
       (handle_row cur_execute T ev row w).1 = Ok tt
       ∧ ∀ e w', process_row cur_execute T ev row w = (Raise e, w') →
                 (handle_row cur_execute T ev row w).2
                 = with_log (log w' ++ [ (ERROR, ErrorProcessingBinlogEvent e);
                                         (ERROR, EventContext ev);
                                         (ERROR, RowContext row) ]) w')
  ∧ (∀ ev row rest (w : world B),
       for_each (handle_row cur_execute T ev) (row :: rest) w
       = for_each (handle_row cur_execute T ev) rest
           (handle_row cur_execute T ev row w).2)
  ∧ (∀ stream1 stream2 (w : world B),
       for_each (handle_event cur_execute T) (stream1 ++ stream2) w
       = for_each (handle_event cur_execute T) stream2
           (for_each (handle_event cur_execute T) stream1 w).2)
  ∧ (∀ stream (w : world B), (main cur_execute T stream w).1 = Ok tt).
Proof.
  split; [|split; [|split; [|split; [|split; [|split]]]]].
  - intros q params w. rewrite execute_sphinx_command_eq.
    destruct (cur_execute q params (sphinx w)) as [e | [b rs]].
    + exists false. split; [reflexivity|]. intros e' [= <-]. now repeat split.
    + exists true. split; [reflexivity|]. intros e' [=].
  - intros id w. rewrite remove_release_from_sphinx_eq. eauto.
  - intros values id name rd w Hid Hname Hrd.
    destruct (release_data_of_Ok values id name Hid Hname)
      as (rd' & Hrd' & Hrid & Hrname & _).
    assert (rd' = rd) as -> by congruence.
    rewrite (add_release_to_sphinx_eq cur_execute rd id name w Hrid Hrname). eauto.
  - intros ev row w. split.
    + destruct (handle_row_never_raises cur_execute T ev row w) as [[] H]. exact H.
    + intros e w' Hraise. now rewrite (handle_row_raised _ _ _ _ _ _ _ Hraise).
  - intros ev row rest w. apply for_each_cons, handle_row_never_raises.
  - intros stream1 stream2 w. apply for_each_app.
    intros ev. apply handle_event_never_raises.
  - intros stream w.
    destruct (main_never_raises cur_execute T stream w) as [[] H]. exact H.
Qed.

Lemma failures_contained_witness :
  let first := Sample.write_event Sample.full_row in
  let second := Sample.delete_event Sample.old_row in
  let w := initial_world tt in
  Sample.unreachable ReplaceInto [] tt = inl (DatabaseError 2003)
  ∧ (main Sample.unreachable Sample.threshold [first; second] w).1 = Ok tt
  ∧ map fst (issued (main Sample.unreachable Sample.threshold [first; second] w).2)
    = [ReplaceInto; DeleteFrom].
Proof.
  intros first second w.
  split; [reflexivity|]. split; [|reflexivity].
  exact (proj2 (proj2 (proj2 (proj2 (proj2 (proj2
           (failures_contained Sample.unreachable Sample.threshold))))))
           [first; second] w).
Defined.

(** ** Startup *)

(** C8: starting from the freshly loaded module, if the probe fails the
    loop is not entered and both caches are empty; if the group table
    returns fewer than 1000 rows, or the section table fewer than 40,
    the corresponding cache is left empty and the loop is not entered;
    the loop is entered only if the probe succeeded and both caches are
    non-empty, and it is entered whenever the pool opens, the probe
    succeeds and both tables reach their minimum. *)
Theorem startup_gating {B} (cur_execute : executor B) (T : Z)
    (create_pool : result unit)
    (select_groups select_sections : result (list (Z * string)))
    (stream : list binlog_event) (b : B) :
  let r := startup cur_execute T create_pool select_groups select_sections
                   stream (initial_world b) in
  (probe_ok cur_execute b = false →
     ¬ entered_consume_loop r.2 ∧ issued r.2 = []
     ∧ groups r.2 = ∅ ∧ sections r.2 = ∅)
  ∧ (∀ rows, select_groups = Ok rows → (length rows < 1000)%nat →
       groups r.2 = ∅ ∧ ¬ entered_consume_loop r.2 ∧ issued r.2 = [])
  ∧ (∀ rows, select_sections = Ok rows → (length rows < 40)%nat →
       sections r.2 = ∅ ∧ ¬ entered_consume_loop r.2 ∧ issued r.2 = [])
  ∧ (entered_consume_loop r.2 →
       probe_ok cur_execute b = true ∧ groups r.2 ≠ ∅ ∧ sections r.2 ≠ ∅)
  ∧ (∀ grows srows,
       create_pool = Ok tt → probe_ok cur_execute b = true →
       select_groups = Ok grows → (1000 ≤ length grows)%nat →
       select_sections = Ok srows → (40 ≤ length srows)%nat →
       entered_consume_loop r.2 ∧ r.1 = Ok AfterMain).
Proof.
  intros r. subst r.
  pose proof (startup_initial cur_execute T create_pool select_groups
                select_sections stream b) as H.
  cbv zeta in H.
  set (r := startup cur_execute T create_pool select_groups select_sections
                    stream (initial_world b)) in *.
  destruct create_pool as [[]|e0].
  2: { destruct H as (_ & [Hne Hiss] & Hg & Hs).
       repeat split; intros; try done. }
  destruct (probe_ok cur_execute b).
  2: { destruct H as (_ & [Hne Hiss] & Hg & Hs).
       repeat split; intros; try done. }
  destruct select_groups as [grows|e1].
  2: { destruct H as (_ & [Hne Hiss] & Hg & Hs).
       repeat split; intros; try done. }
  destruct H as [Hg H].
  destruct select_sections as [srows|e2].
  2: { destruct H as (_ & [Hne Hiss] & Hs).
       repeat split; intros; try done.
       match goal with Heq : Ok _ = Ok ?rows, Hlt : (length ?rows < 1000)%nat |- _ =>
         injection Heq as ->; apply Nat.ltb_lt in Hlt; now rewrite Hg, Hlt end. }
  destruct H as [Hs H].
  destruct (length grows <? 1000)%nat eqn:Hgl;
    destruct (length srows <? 40)%nat eqn:Hsl; cbn [orb] in H.
  4: { (* both tables complete: the loop runs *)
       destruct H as [Hr Hent].
       pose proof (dict_of_rows_nonempty _ _ Hgl) as Hgne.
       pose proof (dict_of_rows_nonempty _ _ Hsl) as Hsne.
       apply Nat.ltb_ge in Hgl, Hsl.
       split; [discriminate|]. split; [|split; [|split]].
       - intros rows [= <-] Hlt. lia.
       - intros rows [= <-] Hlt. lia.
       - intros _. rewrite Hg, Hs. now repeat split.
       - intros. now split. }
  all: destruct H as (Hr & Hne & Hiss);
    split; [discriminate|]; split; [|split; [|split]];
    [ intros rows [= <-] Hlt; try (apply Nat.ltb_ge in Hgl; lia); now rewrite Hg
    | intros rows [= <-] Hlt; try (apply Nat.ltb_ge in Hsl; lia); now rewrite Hs
    | intros Hent; contradiction
    | intros g s _ _ [= <-] Hgmin [= <-] Hsmin;
      try (apply Nat.ltb_lt in Hgl; lia); apply Nat.ltb_lt in Hsl; lia ].
Qed.

Lemma startup_gating_witness :
  let r := startup MapStore.cur_execute Sample.threshold (Ok tt)
                   (Ok (Sample.table_of 1000)) (Ok (Sample.table_of 39))
                   [] (initial_world ∅) in
  (length (Sample.table_of 39) < 40)%nat
  ∧ sections r.2 = ∅
  ∧ ¬ entered_consume_loop r.2.
Proof.
  intros r.
  assert (Hlen : (length (Sample.table_of 39) < 40)%nat) by (vm_compute; lia).
  split; [exact Hlen|].
  destruct (proj1 (proj2 (proj2
              (startup_gating MapStore.cur_execute Sample.threshold (Ok tt)
                 (Ok (Sample.table_of 1000)) (Ok (Sample.table_of 39))
                 [] ∅))) (Sample.table_of 39) eq_refl Hlen) as (Hs & Hne & _).
  split; assumption.
Defined.

(** ** NULL status and missing name *)




(** C10: a row without the releasename column that reaches the
    construction of the record (an Insert row whose id is not below the
    threshold and whose status is not 4, an Update row whose after
    status is not 4) issues no command and leaves the store as it was;
    the [KeyError] is logged with the event and the row, and the loop
    goes on with the next row. *)
Theorem missing_name_skips_row {B} (cur_execute : executor B) (T : Z)
    (ev : binlog_event) (before values : dict) (id : pyval)
    (rest : list binlog_row) (w : world B) :
  values !! "releasename" = None →
  values !! "id" = Some id →
  logically_deleted values = false →
  let row :=
    match ev_class ev with
    | UpdateRowsEvent => RowUpdate before values
    | _ => RowValues values
    end in
  let w' := (handle_row cur_execute T ev row w).2 in
  (ev_class ev = WriteRowsEvent ∧ lt_int id T = Ok false)
  ∨ ev_class ev = UpdateRowsEvent →
  (handle_row cur_execute T ev row w).1 = Ok tt
  ∧ issued w' = issued w
  ∧ sphinx w' = sphinx w
  ∧ log w' = log w ++ [ (ERROR, ErrorProcessingBinlogEvent (KeyError "releasename"));
                        (ERROR, EventContext ev);
                        (ERROR, RowContext row) ]
  ∧ for_each (handle_row cur_execute T ev) (row :: rest) w
    = for_each (handle_row cur_execute T ev) rest w'.
Proof.
  intros Hname Hid Hdel row w' Hreach. subst w'.
  assert (Hraise : process_row cur_execute T ev row w
                   = (Raise (KeyError "releasename"), w)).
  { subst row. destruct Hreach as [[Hc Hlt] | Hc]; rewrite Hc.
    - now apply (process_row_insert_no_name _ _ ev values id w Hc Hid).
    - rewrite process_row_update_active by assumption.
      now rewrite (release_data_of_no_name values id Hid Hname). }
  rewrite for_each_cons by apply handle_row_never_raises.
  rewrite (handle_row_raised _ _ _ _ _ _ _ Hraise).
  now repeat split.
Qed.

Lemma missing_name_skips_row_witness :
  let values := Sample.nameless_row in
  let ev := Sample.write_event values in
  values !! "releasename" = None
  ∧ values !! "id" = Some (PInt 14130600)
  ∧ logically_deleted values = false
  ∧ lt_int (PInt 14130600) Sample.threshold = Ok false
  ∧ issued (handle_row MapStore.cur_execute Sample.threshold ev
              (RowValues values) Sample.fresh).2 = [].
Proof.
  intros values ev. do 4 (split; [reflexivity|]).
  exact (proj1 (proj2
           (missing_name_skips_row MapStore.cur_execute Sample.threshold ev
              ∅ values (PInt 14130600) [] Sample.fresh eq_refl eq_refl eq_refl
              (or_introl (conj eq_refl eq_refl))))).
Defined.

(** ** The scenario of the specification, end to end *)

(** Document 100 is created and then deleted, row 50 is never written:
    two commands are issued and the index ends empty. *)
Example scenario_runs :
  let w := (main MapStore.cur_execute 60 Sample.scenario Sample.fresh).2 in
  issued w
  = [ (ReplaceInto,
       [PInt 100; PStr "R100-GRP"; PStr "R100-GRP"; PInt 0; PInt 0; PInt 0;
        PInt 0; PFloat (S754_zero false); PInt 0]);
      (DeleteFrom, [PInt 100]) ]
  ∧ sphinx w = ∅.
Proof. vm_compute. split; reflexivity. Qed.

(** ** The loop body as a decision followed by one writer call *)

Section TranslationFacts.

Context {B : Type}.
Variable cur_execute : executor B.
Variable T : Z.

Lemma release_data_of_upsert_of (values : dict) (w : world B) :
  match release_data_of values with
  | Ok rd =>
      match add_release_to_sphinx cur_execute rd w with
      | (Ok _, w') => (Ok tt, w')
      | (Raise e, w') => (Raise e, w')
      end
  | Raise e => (Raise e, w)
  end
  = match upsert_of values with
    | Issue m => (Ok tt, (perform cur_execute (command_of m) (done_line m) w).2)
    | Discard => (Ok tt, w)
    | GiveUp e => (Raise e, w)
    end.
Proof.
  unfold upsert_of.
  destruct (values !! "id") as [id|] eqn:Hid.
  - destruct (values !! "releasename") as [name|] eqn:Hname.
    + destruct (release_data_of_Ok values id name Hid Hname)
        as (rd & -> & Hrid & Hrname & Htuple).
      rewrite (add_release_to_sphinx_eq cur_execute rd id name w Hrid Hrname).
      cbn [fst snd command_of done_line]. now rewrite Htuple.
    + now rewrite (release_data_of_no_name values id Hid Hname).
  - now rewrite (release_data_of_no_id values Hid).
Qed.

Lemma process_row_translate ev row (w : world B) :
  process_row cur_execute T ev row w
  = match translate T ev row with
    | Issue m => (Ok tt, (perform cur_execute (command_of m) (done_line m) w).2)
    | Discard => (Ok tt, w)
    | GiveUp e => (Raise e, w)
    end.
Proof.
  unfold translate. destruct (ev_class ev) eqn:Hc, row as [values | before after].
  - (* delete *)
    destruct (values !! "id") as [id|] eqn:Hid.
    + now apply process_row_delete.
    + apply process_row_no_id; [congruence | assumption].
  - unfold process_row. now rewrite Hc.
  - (* write *)
    destruct (values !! "id") as [id|] eqn:Hid.
    + destruct (lt_int id T) as [[|]|e] eqn:Hlt.
      * now apply (process_row_insert_below _ _ ev values id).
      * destruct (logically_deleted values) eqn:Hdel.
        -- now apply (process_row_insert_deleted _ _ ev values id).
        -- rewrite <- release_data_of_upsert_of.
           unfold process_row. rewrite Hc. unfold bind at 1, lift at 1.
           cbn [row_getitem String.eqb Ascii.eqb Bool.eqb].
           unfold bind, lift, getitem.
           rewrite Hid, Hlt, eq_int_get_or_status, Hdel.
           destruct (release_data_of values) as [rd|e]; [|reflexivity].
           destruct (add_release_to_sphinx cur_execute rd w) as [[ok|e] w'];
             reflexivity.
      * unfold process_row. rewrite Hc. unfold bind, lift, getitem. cbn.
        now rewrite Hid, Hlt.
    + apply process_row_no_id; [congruence | assumption].
  - unfold process_row. now rewrite Hc.
  - unfold process_row. now rewrite Hc.
  - (* update *)
    destruct (logically_deleted after) eqn:Ha.
    + destruct (logically_deleted before) eqn:Hb.
      * now apply process_row_update_stays_deleted.
      * destruct (after !! "id") as [id|] eqn:Hid.
        -- now apply process_row_update_into_deleted.
        -- unfold process_row. rewrite Hc. unfold bind, lift, getitem. cbn.
           now rewrite !eq_int_get_status, Ha, Hb, Hid.
    + rewrite <- release_data_of_upsert_of.
      now apply process_row_update_active.
Qed.

Lemma handle_row_translate ev row (w : world B) :
  handle_row cur_execute T ev row w
  = (Ok tt, enact cur_execute ev row (translate T ev row) w).
Proof.
  pose proof (process_row_translate ev row w) as H.
  destruct (translate T ev row) as [m| |e]; cbn [enact].
  - now apply handle_row_returned.
  - now apply handle_row_returned.
  - now apply handle_row_raised.
Qed.

Lemma enact_issued ev row v (w : world B) :
  issued (enact cur_execute ev row v w)
  = issued w ++ match v with Issue m => [command_of m] | _ => [] end.
Proof.
  destruct v as [m| |e]; cbn [enact].
  - apply perform_issued.
  - now rewrite app_nil_r.
  - cbn. now rewrite app_nil_r.
Qed.

Lemma for_each_rows_issued ev rs (w : world B) :
  issued (for_each (handle_row cur_execute T ev) rs w).2
  = issued w ++ map command_of (mutations_of_rows T ev rs).
Proof.
  revert w. induction rs as [|row rs IH]; intros w.
  - cbn. now rewrite app_nil_r.
  - rewrite for_each_cons by apply handle_row_never_raises.
    rewrite IH, handle_row_translate. cbn [snd].
    rewrite enact_issued. unfold mutations_of_rows. cbn [flat_map].
    rewrite map_app, <- app_assoc. f_equal. f_equal.
    now destruct (translate T ev row).
Qed.

Lemma handle_event_issued ev (w : world B) :
  issued (handle_event cur_execute T ev w).2
  = issued w ++ map command_of (mutations_of_event T ev).
Proof.
  unfold handle_event, mutations_of_event.
  destruct (String.eqb (table ev) "releases"); cbn [negb].
  - apply for_each_rows_issued.
  - cbn. now rewrite app_nil_r.
Qed.

Lemma for_each_events_issued stream (w : world B) :
  issued (for_each (handle_event cur_execute T) stream w).2
  = issued w ++ map command_of (mutations T stream).
Proof.
  revert w. induction stream as [|ev stream IH]; intros w.
  - cbn. now rewrite app_nil_r.
  - rewrite for_each_cons by apply handle_event_never_raises.
    rewrite IH, handle_event_issued. unfold mutations. cbn [flat_map].
    now rewrite map_app, <- app_assoc.
Qed.

End TranslationFacts.

(** ** Further properties of the binlog loop *)

Lemma commands_of_rows (T : Z) (ev : binlog_event) (rs : list binlog_row) :
  map command_of (mutations_of_rows T ev rs)
  = flat_map (λ row, match translate T ev row with
                     | Issue m => [command_of m]
                     | _ => []
                     end) rs.
Proof.
  unfold mutations_of_rows. induction rs as [|row rs IH]; [reflexivity|].
  cbn [flat_map]. rewrite map_app, IH. now destruct (translate T ev row).
Qed.

Lemma commands_of_stream (T : Z) (stream : list binlog_event) :
  map command_of (mutations T stream)
  = flat_map (λ ev, flat_map (λ row, match translate T ev row with
                                     | Issue m => [command_of m]
                                     | _ => []
                                     end) (rows ev))
      (List.filter monitored stream).
Proof.
  unfold mutations. induction stream as [|ev stream IH]; [reflexivity|].
  cbn [flat_map List.filter]. rewrite map_app, IH.
  unfold mutations_of_event at 1.
  change (String.eqb (table ev) "releases") with (monitored ev).
  destruct (monitored ev); [|reflexivity].
  cbn [flat_map]. now rewrite commands_of_rows.
Qed.

(** X1: the commands handed to the writer are the same whatever the
    store is and whatever it answers. Every row issues at most one
    command, the same on any two stores and from any state; the commands
    [main] issues on a stream are those of the rows of the events of
    [releases], in order, so two runs on the same stream issue the same
    commands, no more than there are such rows. *)
Theorem issued_trace_independent_of_store {B1 B2}
    (exec1 : executor B1) (exec2 : executor B2) (T : Z)
    (stream : list binlog_event) (w1 : world B1) (w2 : world B2) :
  ∃ per_row : binlog_event → binlog_row → list command,
    (∀ ev row, (length (per_row ev row) ≤ 1)%nat)
    ∧ (∀ ev row (w : world B1),
         issued (handle_row exec1 T ev row w).2 = issued w ++ per_row ev row)
    ∧ (∀ ev row (w : world B2),
         issued (handle_row exec2 T ev row w).2 = issued w ++ per_row ev row)
    ∧ let cs := flat_map (λ ev, flat_map (per_row ev) (rows ev))
                  (List.filter monitored stream) in
      issued (main exec1 T stream w1).2 = issued w1 ++ cs
      ∧ issued (main exec2 T stream w2).2 = issued w2 ++ cs
      ∧ (length cs ≤ length (flat_map rows (List.filter monitored stream)))%nat.
Proof.
  exists (λ ev row, match translate T ev row with
                    | Issue m => [command_of m]
                    | _ => []
                    end).
  split; [|split; [|split]].
  - intros ev row. destruct (translate T ev row); cbn; lia.
  - intros ev row w. rewrite handle_row_translate. cbn [snd]. apply enact_issued.
  - intros ev row w. rewrite handle_row_translate. cbn [snd]. apply enact_issued.
  - cbv zeta. rewrite <- commands_of_stream. split; [|split].
    + unfold main, bind, logger. cbn. now rewrite for_each_events_issued.
    + unfold main, bind, logger. cbn. now rewrite for_each_events_issued.
    + rewrite length_map. unfold mutations.
      assert (Hrows : ∀ ev rs, (length (mutations_of_rows T ev rs) ≤ length rs)%nat).
      { intros ev. induction rs as [|row rs IHrs]; [reflexivity|].
        unfold mutations_of_rows in *. cbn [flat_map]. rewrite length_app.
        destruct (translate T ev row); cbn; lia. }
      induction stream as [|ev stream IH]; [reflexivity|].
      cbn [flat_map List.filter]. unfold mutations_of_event at 1, monitored at 1.
      rewrite length_app. destruct (String.eqb (table ev) "releases").
      * cbn [flat_map]. rewrite length_app. specialize (Hrows ev (rows ev)). lia.
      * cbn [length]. exact IH.
Qed.

(** X2: events of other tables change nothing: running [main] on a
    stream is running it on the events of [releases] alone. *)
Theorem other_tables_are_ignored {B} (cur_execute : executor B) (T : Z)
    (stream : list binlog_event) (w : world B) :
  main cur_execute T stream w = main cur_execute T (List.filter monitored stream) w.
Proof.
  unfold main, bind, logger. cbn.
  generalize (with_log (log w ++ [(INFO, StartingBinlogStreamReader)]) w).
  induction stream as [|ev stream IH]; intros w0; [reflexivity|].
  rewrite for_each_cons by apply handle_event_never_raises.
  cbn [List.filter]. unfold monitored at 1.
  destruct (String.eqb_spec (table ev) "releases") as [Ht|Ht].
  - rewrite for_each_cons by apply handle_event_never_raises. apply IH.
  - rewrite handle_event_other_table by assumption. apply IH.
Qed.

(** X3: a row whose snapshot has no id never reaches the store. A Delete
    or Insert row without id is given up with [KeyError('id')] logged
    with the event and the row; an Update row whose after snapshot has
    no id issues no command either. *)
Theorem row_without_id_is_skipped {B} (cur_execute : executor B) (T : Z)
    (ev : binlog_event) (before values : dict) (w : world B) :
  values !! "id" = None →
  (ev_class ev ≠ UpdateRowsEvent →
     handle_row cur_execute T ev (RowValues values) w
     = (Ok tt, skipped (KeyError "id") ev (RowValues values) w))
  ∧ (ev_class ev = UpdateRowsEvent →
     let w' := (handle_row cur_execute T ev (RowUpdate before values) w).2 in
     issued w' = issued w ∧ sphinx w' = sphinx w).
Proof.
  intros Hid. split.
  - intros Hc. apply handle_row_raised. now apply process_row_no_id.
  - intros Hc w'. subst w'. rewrite handle_row_translate. cbn [snd].
    unfold translate, upsert_of. rewrite Hc, Hid.
    destruct (logically_deleted values), (logically_deleted before); now cbn.
Qed.

Lemma row_without_id_is_skipped_witness :
  let values : dict := <["releasename" := PStr "No.Key-GRP"]> ∅ in
  let ev := Sample.delete_event values in
  values !! "id" = None
  ∧ ev_class ev ≠ UpdateRowsEvent
  ∧ issued (handle_row MapStore.cur_execute Sample.threshold ev
              (RowValues values) Sample.fresh).2 = [].
Proof.
  intros values ev. split; [reflexivity|]. split; [discriminate|].
  now rewrite (proj1 (row_without_id_is_skipped MapStore.cur_execute
                        Sample.threshold ev ∅ values Sample.fresh eq_refl)
                 ltac:(discriminate)).
Defined.

(** X4: the threshold test orders the id against an integer, so an
    Insert row whose id is NULL or a string is given up with
    [TypeError], before its status or its name are looked at; nothing is
    issued. *)
Theorem insert_with_unordered_id_is_skipped {B} (cur_execute : executor B) (T : Z)
    (ev : binlog_event) (values : dict) (id : pyval) (w : world B) :
  ev_class ev = WriteRowsEvent →
  values !! "id" = Some id →
  id = PNone ∨ (∃ s, id = PStr s) →
  handle_row cur_execute T ev (RowValues values) w
  = (Ok tt, skipped TypeError ev (RowValues values) w).
Proof.
  intros Hc Hid Hty. rewrite handle_row_translate.
  unfold translate. rewrite Hc, Hid.
  destruct Hty as [-> | [s ->]]; reflexivity.
Qed.

Lemma insert_with_unordered_id_is_skipped_witness :
  let values : dict := <["id" := PNone]> Sample.full_row in
  let ev := Sample.write_event values in
  ev_class ev = WriteRowsEvent
  ∧ values !! "id" = Some PNone
  ∧ issued (handle_row MapStore.cur_execute Sample.threshold ev
              (RowValues values) Sample.fresh).2 = []
  ∧ (handle_row MapStore.cur_execute Sample.threshold ev
       (RowValues values) Sample.fresh).1 = Ok tt.
Proof.
  intros values ev. split; [reflexivity|]. split; [reflexivity|].
  now rewrite (insert_with_unordered_id_is_skipped MapStore.cur_execute
                 Sample.threshold ev values PNone Sample.fresh
                 eq_refl eq_refl (or_introl eq_refl)).
Defined.

(** X5: when the after snapshot of an Update row is not deleted, the
    before snapshot plays no part: the branch "was 4, is not 4" and the
    branch "is not 4" do the same thing. *)
Theorem update_of_active_row_ignores_before {B} (cur_execute : executor B) (T : Z)
    (ev : binlog_event) (before before' after : dict) (w : world B) :
  ev_class ev = UpdateRowsEvent →
  logically_deleted after = false →
  process_row cur_execute T ev (RowUpdate before after) w
  = process_row cur_execute T ev (RowUpdate before' after) w.
Proof.
  intros Hc Ha. now rewrite !process_row_update_active by assumption.
Qed.

Lemma update_of_active_row_ignores_before_witness :
  let ev := Sample.update_event Sample.deleted_row Sample.full_row in
  ev_class ev = UpdateRowsEvent
  ∧ logically_deleted Sample.full_row = false
  ∧ process_row MapStore.cur_execute Sample.threshold ev
      (RowUpdate Sample.deleted_row Sample.full_row) Sample.fresh
    = process_row MapStore.cur_execute Sample.threshold ev
        (RowUpdate Sample.old_row Sample.full_row) Sample.fresh.
Proof.
  intros ev. split; [reflexivity|]. split; [reflexivity|].
  exact (update_of_active_row_ignores_before MapStore.cur_execute
           Sample.threshold ev Sample.deleted_row Sample.old_row
           Sample.full_row Sample.fresh eq_refl eq_refl).
Defined.

(** ** Further properties of the index writer *)

(** X6: [add_release_to_sphinx] on a record without id raises
    [KeyError('id')] before anything is issued. On a record with an id
    but no releasename it issues the [REPLACE] with the empty string as
    name; if the store accepts it, the document is written and the call
    then raises [KeyError('releasename')] from its log line; if the
    store refuses it, the call returns [False]. *)
Theorem upsert_of_incomplete_record {B} (cur_execute : executor B)
    (release_data : dict) (w : world B) :
  (release_data !! "id" = None →
     add_release_to_sphinx cur_execute release_data w = (Raise (KeyError "id"), w))
  ∧ (∀ id, release_data !! "id" = Some id →
       release_data !! "releasename" = None →
       let tuple := replace_tuple release_data id (PStr "") in
       let r := add_release_to_sphinx cur_execute release_data w in
       issued r.2 = issued w ++ [(ReplaceInto, tuple)]
       ∧ (∀ b rs, cur_execute ReplaceInto tuple (sphinx w) = inr (b, rs) →
            r.1 = Raise (KeyError "releasename") ∧ sphinx r.2 = b
            ∧ log r.2 = log w)
       ∧ (∀ e, cur_execute ReplaceInto tuple (sphinx w) = inl e →
            r.1 = Ok false ∧ sphinx r.2 = sphinx w
            ∧ log r.2 = log w ++ [(ERROR, SphinxCommandFailed ReplaceInto e)])).
Proof.
  split; [apply add_release_to_sphinx_no_id|].
  intros id Hid Hname tuple r.
  assert (Hr : r = match cur_execute ReplaceInto tuple (sphinx w) with
                   | inl e =>
                       (Ok false,
                        with_log (log w ++ [(ERROR, SphinxCommandFailed ReplaceInto e)])
                          (with_issued (issued w ++ [(ReplaceInto, tuple)]) w))
                   | inr (b, _) =>
                       (Raise (KeyError "releasename"),
                        with_sphinx b (with_issued (issued w ++ [(ReplaceInto, tuple)]) w))
                   end).
  { subst tuple r.
    unfold add_release_to_sphinx, bind at 1, lift, getitem.
    rewrite Hid. unfold bind at 1. rewrite execute_sphinx_command_eq, !or_get_column.
    unfold get_or. rewrite Hname. cbn [default].
    fold (replace_tuple release_data id (PStr "")).
    destruct (cur_execute ReplaceInto _ (sphinx w)) as [e | [b rs]]; reflexivity. }
  rewrite Hr. clear Hr.
  destruct (cur_execute ReplaceInto tuple (sphinx w)) as [e | [b rs]].
  - split; [reflexivity|]. split; [intros b rs [=] | intros e' [= <-]; now cbn].
  - split; [reflexivity|]. split; [intros b' rs' [= <- _]; now cbn | intros e [=]].
Qed.

Lemma upsert_of_incomplete_record_witness :
  let rd := Sample.nameless_row in
  rd !! "id" = Some (PInt 14130600)
  ∧ rd !! "releasename" = None
  ∧ (add_release_to_sphinx MapStore.cur_execute rd Sample.fresh).1
    = Raise (KeyError "releasename")
  ∧ sphinx (add_release_to_sphinx MapStore.cur_execute rd Sample.fresh).2 !! 14130600
    = Some [PInt 14130600; PStr ""; PStr ""; PInt 0; PInt 0; PInt 0; PInt 0;
            PFloat (S754_zero false); PInt 0].
Proof.
  intros rd. split; [reflexivity|]. split; [reflexivity|].
  destruct (proj2 (upsert_of_incomplete_record MapStore.cur_execute rd Sample.fresh)
              (PInt 14130600) eq_refl eq_refl) as (_ & Hok & _).
  destruct (Hok _ _ eq_refl) as (Hr & Hs & _).
  split; [exact Hr|]. rewrite Hs. reflexivity.
Defined.

(** X7: a write the store refuses is logged once, by the writer, and
    the row is over: the handler around the row sees a normal return,
    logs nothing of its own, nothing is retried and the store is left as
    it was. *)
Theorem refused_write_is_not_retried {B} (cur_execute : executor B) (T : Z)
    (ev : binlog_event) (values : dict) (id : pyval) (e : exn) (w : world B) :
  values !! "id" = Some id →
  let refused (c : command) :=
    (Ok tt,
     with_log (log w ++ [(ERROR, SphinxCommandFailed c.1 e)])
              (with_issued (issued w ++ [c]) w)) in
  (ev_class ev = DeleteRowsEvent →
     cur_execute DeleteFrom [id] (sphinx w) = inl e →
     handle_row cur_execute T ev (RowValues values) w = refused (DeleteFrom, [id]))
  ∧ (∀ name,
       ev_class ev = WriteRowsEvent →
       lt_int id T = Ok false →
       logically_deleted values = false →
       values !! "releasename" = Some name →
       cur_execute ReplaceInto (replace_tuple values id name) (sphinx w) = inl e →
       handle_row cur_execute T ev (RowValues values) w
       = refused (ReplaceInto, replace_tuple values id name)).
Proof.
  intros Hid refused. subst refused. split.
  - intros Hc He.
    rewrite (handle_row_returned _ _ _ _ _ _
               (process_row_delete _ _ ev values id w Hc Hid)).
    unfold perform. cbn [fst snd]. now rewrite He.
  - intros name Hc Hlt Hdel Hname He.
    rewrite (handle_row_returned _ _ _ _ _ _
               (process_row_insert_upsert _ _ ev values id name w Hc Hid Hlt Hdel Hname)).
    unfold perform. cbn [fst snd]. now rewrite He.
Qed.

Lemma refused_write_is_not_retried_witness :
  let ev := Sample.delete_event Sample.old_row in
  let w : world unit := initial_world tt in
  Sample.old_row !! "id" = Some (PInt 100)
  ∧ ev_class ev = DeleteRowsEvent
  ∧ Sample.unreachable DeleteFrom [PInt 100] (sphinx w) = inl (DatabaseError 2003)
  ∧ log (handle_row Sample.unreachable Sample.threshold ev
           (RowValues Sample.old_row) w).2
    = [(ERROR, SphinxCommandFailed DeleteFrom (DatabaseError 2003))].
Proof.
  intros ev w. do 3 (split; [reflexivity|]).
  now rewrite (proj1 (refused_write_is_not_retried Sample.unreachable
                        Sample.threshold ev Sample.old_row (PInt 100)
                        (DatabaseError 2003) w eq_refl) eq_refl eq_refl).
Defined.

(** ** The index as a map: what a stream does to it *)

Section MapStoreFacts.

Variable T : Z.

Local Abbreviation apply_all :=
  (fold_left (λ (ix : MapStore.index) (c : command), store_after c ix)).

Lemma perform_store (c : command) (done : message) (w : world MapStore.index) :
  sphinx (perform MapStore.cur_execute c done w).2 = store_after c (sphinx w).
Proof.
  unfold perform, store_after.
  destruct (MapStore.cur_execute c.1 c.2 (sphinx w)) as [e | [ix rs]]; reflexivity.
Qed.

Lemma enact_store ev row v (w : world MapStore.index) :
  sphinx (enact MapStore.cur_execute ev row v w)
  = apply_all match v with Issue m => [command_of m] | _ => [] end (sphinx w).
Proof. destruct v as [m| |e]; cbn [enact]; [apply perform_store | done | done]. Qed.

Lemma for_each_rows_store ev rs (w : world MapStore.index) :
  sphinx (for_each (handle_row MapStore.cur_execute T ev) rs w).2
  = apply_all (map command_of (mutations_of_rows T ev rs)) (sphinx w).
Proof.
  revert w. induction rs as [|row rs IH]; intros w; [reflexivity|].
  rewrite for_each_cons by apply handle_row_never_raises.
  rewrite IH, handle_row_translate. cbn [snd]. rewrite enact_store.
  unfold mutations_of_rows. cbn [flat_map]. rewrite map_app, fold_left_app.
  now destruct (translate T ev row).
Qed.

Lemma handle_event_store ev (w : world MapStore.index) :
  sphinx (handle_event MapStore.cur_execute T ev w).2
  = apply_all (map command_of (mutations_of_event T ev)) (sphinx w).
Proof.
  unfold handle_event, mutations_of_event.
  destruct (String.eqb (table ev) "releases"); cbn [negb];
    [apply for_each_rows_store | reflexivity].
Qed.

Lemma main_store stream (w : world MapStore.index) :
  sphinx (main MapStore.cur_execute T stream w).2
  = apply_all (map command_of (mutations T stream)) (sphinx w).
Proof.
  unfold main, bind, logger. cbn.
  change (sphinx w) with
    (sphinx (with_log (log w ++ [(INFO, StartingBinlogStreamReader)]) w)).
  generalize (with_log (log w ++ [(INFO, StartingBinlogStreamReader)]) w).
  induction stream as [|ev stream IH]; intros w0; [reflexivity|].
  rewrite for_each_cons by apply handle_event_never_raises.
  rewrite IH, handle_event_store. unfold mutations. cbn [flat_map].
  now rewrite map_app, fold_left_app.
Qed.

(** A command sets at most one key to a fixed content. *)
Lemma store_after_lookup (c : command) :
  ∃ s : Z → option (option (list pyval)),
    ∀ (ix : MapStore.index) k,
      store_after c ix !! k = match s k with Some v => v | None => ix !! k end.
Proof.
  destruct c as [q params]. unfold store_after, MapStore.cur_execute. cbn [fst snd].
  destruct q.
  - destruct params as [|[|k0|f|str] rest];
      try (exists (λ _, None); reflexivity).
    destruct (length (PInt k0 :: rest) =? 9)%nat;
      [|exists (λ _, None); reflexivity].
    exists (λ k, if decide (k0 = k) then Some (Some (PInt k0 :: rest)) else None).
    intros ix k. rewrite lookup_insert. now destruct (decide (k0 = k)).
  - destruct params as [|[|k0|f|str] [|? ?]];
      try (exists (λ _, None); reflexivity).
    exists (λ k, if decide (k0 = k) then Some None else None).
    intros ix k. rewrite lookup_delete. now destruct (decide (k0 = k)).
  - destruct params; exists (λ _, None); reflexivity.
Qed.

Lemma apply_all_lookup (cs : list command) :
  ∃ s : Z → option (option (list pyval)),
    ∀ (ix : MapStore.index) k,
      apply_all cs ix !! k = match s k with Some v => v | None => ix !! k end.
Proof.
  induction cs as [|c cs [s Hs]].
  - now exists (λ _, None).
  - destruct (store_after_lookup c) as [s0 Hs0].
    exists (λ k, match s k with Some v => Some v | None => s0 k end).
    intros ix k. cbn [fold_left]. rewrite Hs, Hs0. now destruct (s k).
Qed.

Lemma apply_all_idempotent (cs : list command) (ix : MapStore.index) :
  apply_all cs (apply_all cs ix) = apply_all cs ix.
Proof.
  destruct (apply_all_lookup cs) as [s Hs].
  apply map_eq. intros k. rewrite !Hs. now destruct (s k).
Qed.

End MapStoreFacts.

(** X8: on the index seen as a map, the index after [main] is the
    index before it with the issued commands applied in order; the
    state of the index never decides what is issued. *)
Theorem index_follows_issued_commands (T : Z) (stream : list binlog_event)
    (w : world MapStore.index) :
  let w' := (main MapStore.cur_execute T stream w).2 in
  ∃ cs : list command,
    issued w' = issued w ++ cs
    ∧ sphinx w' = fold_left (λ ix c, store_after c ix) cs (sphinx w).
Proof.
  intros w'. subst w'. exists (map command_of (mutations T stream)). split.
  - unfold main, bind, logger. cbn. now rewrite for_each_events_issued.
  - apply main_store.
Qed.

(** X9: replaying a stream is harmless: on the index seen as a map,
    running [main] a second time on the same stream leaves the index as
    the first run left it. *)
Theorem replay_of_stream_is_idempotent (T : Z) (stream : list binlog_event)
    (w : world MapStore.index) :
  sphinx (main MapStore.cur_execute T stream
            (main MapStore.cur_execute T stream w).2).2
  = sphinx (main MapStore.cur_execute T stream w).2.
Proof. rewrite !main_store. apply apply_all_idempotent. Qed.

Lemma translate_issue (T : Z) (ev : binlog_event) (row : binlog_row) (m : mutation) :
  translate T ev row = Issue m →
  let snap := match row with RowValues v => v | RowUpdate _ a => a end in
  ∃ id, snap !! "id" = Some id
        ∧ (m = Remove id ∨ ∃ name, m = Upsert id name (replace_tuple snap id name)).
Proof.
  assert (Hup : ∀ values, upsert_of values = Issue m →
            ∃ id, values !! "id" = Some id
                  ∧ (m = Remove id
                     ∨ ∃ name, m = Upsert id name (replace_tuple values id name))).
  { intros values. unfold upsert_of.
    destruct (values !! "id") as [id|]; [|discriminate].
    destruct (values !! "releasename") as [name|]; [|discriminate].
    intros [= <-]. eauto. }
  unfold translate.
  destruct (ev_class ev), row as [values | before after]; cbn; try discriminate.
  - destruct (values !! "id") as [id|]; [|discriminate]. intros [= <-]. eauto.
  - destruct (values !! "id") as [id|] eqn:Hid; [|discriminate].
    destruct (lt_int id T) as [[|]|e]; try discriminate.
    destruct (logically_deleted values); [discriminate|].
    intros Hu. destruct (Hup values Hu) as (id0 & Hid0 & Hm).
    exists id0. split; [congruence | exact Hm].
  - destruct (logically_deleted after); [|apply Hup].
    destruct (logically_deleted before); [discriminate|].
    destruct (after !! "id") as [id|]; [|discriminate]. intros [= <-]. eauto.
Qed.

(** X10: on the index seen as a map, a row changes at most the document
    stored under the id of its own snapshot (the after snapshot of an
    Update row): every other document is as it was. *)
Theorem row_touches_only_its_key (T : Z) (ev : binlog_event) (row : binlog_row)
    (k : Z) (w : world MapStore.index) :
  let snap := match row with RowValues v => v | RowUpdate _ a => a end in
  snap !! "id" ≠ Some (PInt k) →
  sphinx (handle_row MapStore.cur_execute T ev row w).2 !! k = sphinx w !! k.
Proof.
  intros snap Hk. rewrite handle_row_translate. cbn [snd]. rewrite enact_store.
  destruct (translate T ev row) as [m| |e] eqn:Htr; try reflexivity.
  destruct (translate_issue T ev row m Htr) as (id & Hid & Hm). fold snap in Hid.
  assert (Hne : id ≠ PInt k) by congruence.
  cbn [fold_left]. unfold store_after, MapStore.cur_execute.
  destruct Hm as [-> | [name ->]]; cbn [command_of fst snd].
  - destruct id as [|k0|f|s]; try reflexivity.
    apply lookup_delete_ne. congruence.
  - unfold replace_tuple. destruct id as [|k0|f|s]; try reflexivity.
    cbn. apply lookup_insert_ne. congruence.
Qed.

Lemma row_touches_only_its_key_witness :
  let ev := Sample.write_event Sample.full_row in
  let w := (handle_row MapStore.cur_execute Sample.threshold
              (Sample.write_event Sample.bare_row)
              (RowValues Sample.bare_row) Sample.fresh).2 in
  Sample.full_row !! "id" ≠ Some (PInt 14130601)
  ∧ sphinx (handle_row MapStore.cur_execute Sample.threshold ev
              (RowValues Sample.full_row) w).2 !! 14130601
    = Some [PInt 14130601; PStr "Bare-GRP"; PStr "Bare-GRP";
            PInt 0; PInt 0; PInt 0; PInt 0; PFloat (S754_zero false); PInt 0].
Proof.
  intros ev w.
  assert (Hne : Sample.full_row !! "id" ≠ Some (PInt 14130601)) by (vm_compute; congruence).
  split; [exact Hne|].
  now rewrite (row_touches_only_its_key Sample.threshold ev
                 (RowValues Sample.full_row) 14130601 w Hne).
Defined.

(** X11: on the index seen as a map, a release that is inserted and
    then updated to status 4 ends up without document; if it had none
    before the insert, the index is back to what it was. *)
Theorem insert_then_soft_delete (T : Z) (ev_w ev_u : binlog_event)
    (values : dict) (k : Z) (name : pyval) (w : world MapStore.index) :
  ev_class ev_w = WriteRowsEvent →
  ev_class ev_u = UpdateRowsEvent →
  values !! "id" = Some (PInt k) →
  T ≤ k →
  logically_deleted values = false →
  values !! "releasename" = Some name →
  let after := <["status" := PInt 4]> values in
  let w1 := (handle_row MapStore.cur_execute T ev_w (RowValues values) w).2 in
  let w2 := (handle_row MapStore.cur_execute T ev_u (RowUpdate values after) w1).2 in
  sphinx w1 !! k = Some (replace_tuple values (PInt k) name)
  ∧ sphinx w2 = delete k (sphinx w)
  ∧ sphinx w2 !! k = None
  ∧ (sphinx w !! k = None → sphinx w2 = sphinx w).
Proof.
  intros Hw Hu Hid Hk Hdel Hname after w1 w2.
  pose proof (lt_int_not_below k T Hk) as Hlt.
  assert (Ha : logically_deleted after = true).
  { unfold logically_deleted, row_status, after. now rewrite lookup_insert_eq. }
  assert (Haid : after !! "id" = Some (PInt k)).
  { unfold after. now rewrite lookup_insert_ne. }
  assert (H1 : sphinx w1 = <[k := replace_tuple values (PInt k) name]> (sphinx w)).
  { unfold w1.
    rewrite (handle_row_returned _ _ _ _ _ _
               (process_row_insert_upsert _ _ ev_w values _ name w Hw Hid Hlt Hdel Hname)).
    reflexivity. }
  assert (H2 : sphinx w2 = delete k (sphinx w)).
  { unfold w2.
    rewrite (handle_row_returned _ _ _ _ _ _
               (process_row_update_into_deleted _ _ ev_u values after _ w1 Hu Hdel Ha Haid)).
    cbn [snd]. rewrite perform_store. unfold store_after. cbn.
    rewrite H1. apply delete_insert_eq. }
  split; [rewrite H1; apply lookup_insert_eq|].
  split; [exact H2|]. rewrite H2.
  split; [apply lookup_delete_eq | apply delete_id].
Qed.

Lemma insert_then_soft_delete_witness :
  let values := Sample.full_row in
  let ev_w := Sample.write_event values in
  let ev_u := Sample.update_event values Sample.deleted_row in
  let w1 := (handle_row MapStore.cur_execute Sample.threshold ev_w
               (RowValues values) Sample.fresh).2 in
  let w2 := (handle_row MapStore.cur_execute Sample.threshold ev_u
               (RowUpdate values (<["status" := PInt 4]> values)) w1).2 in
  values !! "id" = Some (PInt 14130600)
  ∧ Sample.threshold ≤ 14130600
  ∧ logically_deleted values = false
  ∧ values !! "releasename" = Some (PStr "Some.Release.2024-GRP")
  ∧ sphinx w2 = ∅.
Proof.
  intros values ev_w ev_u w1 w2.
  assert (Hk : Sample.threshold ≤ 14130600)
    by (unfold Sample.threshold, configured_last_known_insert; lia).
  split; [reflexivity|]. split; [exact Hk|].
  split; [reflexivity|]. split; [reflexivity|].
  destruct (insert_then_soft_delete Sample.threshold ev_w ev_u values 14130600
              (PStr "Some.Release.2024-GRP") Sample.fresh
              eq_refl eq_refl eq_refl Hk eq_refl eq_refl) as (_ & _ & _ & Hback).
  exact (Hback eq_refl).
Defined.

(** ** Further properties of the reference caches and of startup *)

Section CacheFacts.

Local Abbreviation put := (λ (m : gmap Z string) (kv : Z * string), <[kv.1 := kv.2]> m).

Lemma fold_put_lookup_other (rows : list (Z * string)) (m : gmap Z string) (k : Z) :
  k ∉ rows.*1 → fold_left put rows m !! k = m !! k.
Proof.
  revert m. induction rows as [|[k0 v0] rows IH]; intros m Hk; [reflexivity|].
  cbn in *. apply not_elem_of_cons in Hk as [Hne Hk].
  rewrite IH by assumption. now apply lookup_insert_ne.
Qed.

Lemma fold_put_lookup_None (rows : list (Z * string)) (m : gmap Z string) (k : Z) :
  fold_left put rows m !! k = None ↔ m !! k = None ∧ k ∉ rows.*1.
Proof.
  revert m. induction rows as [|[k0 v0] rows IH]; intros m; cbn.
  - split; [intros H; split; [exact H | apply not_elem_of_nil] | now intros [H _]].
  - rewrite IH, not_elem_of_cons. destruct (decide (k0 = k)) as [->|Hne].
    + rewrite lookup_insert_eq. split; [now intros [H _] | now intros (_ & H & _)].
    + rewrite lookup_insert_ne by assumption. split.
      * intros [H1 H2]. repeat split; auto.
      * intros (H1 & _ & H2). now split.
Qed.

Lemma fold_put_size (rows : list (Z * string)) (m : gmap Z string) :
  (size (fold_left put rows m) ≤ size m + length rows)%nat
  ∧ (NoDup rows.*1 → (∀ k, k ∈ rows.*1 → m !! k = None) →
     size (fold_left put rows m) = (size m + length rows)%nat).
Proof.
  revert m. induction rows as [|[k0 v0] rows IH]; intros m; cbn.
  - split; [lia | intros; lia].
  - destruct (IH (<[k0 := v0]> m)) as [Hle Heq]. split.
    + pose proof (map_size_insert k0 v0 m) as Hs.
      destruct (m !! k0); unfold id in Hs; lia.
    + intros Hnd Hfresh. apply NoDup_cons in Hnd as [Hk0 Hnd].
      rewrite Heq; [|assumption|].
      * rewrite map_size_insert_None; [lia|]. apply Hfresh. now left.
      * intros k Hk. rewrite lookup_insert_ne; [apply Hfresh; now right|].
        intros ->. contradiction.
Qed.

Lemma fold_left_max_spec (ks : list Z) (k0 : Z) :
  let m := fold_left Z.max ks k0 in
  k0 ≤ m ∧ (∀ x, x ∈ ks → x ≤ m) ∧ (m = k0 ∨ m ∈ ks).
Proof.
  revert k0. induction ks as [|k ks IH]; intros k0; cbn.
  - split; [lia|]. split; [intros x Hx; now apply elem_of_nil in Hx | now left].
  - destruct (IH (Z.max k0 k)) as (Hle & Hall & Hin). split; [lia|]. split.
    + intros x Hx. apply elem_of_cons in Hx as [-> | Hx]; [lia | now apply Hall].
    + destruct Hin as [Hin | Hin]; [|right; apply elem_of_cons; now right].
      destruct (Z.max_spec k0 k) as [[_ Hm] | [_ Hm]].
      * right. apply elem_of_cons. left. congruence.
      * left. congruence.
Qed.

Lemma max_key_or_0_spec (d : gmap Z string) :
  d ≠ ∅ →
  is_Some (d !! max_key_or_0 d) ∧ ∀ k, is_Some (d !! k) → k ≤ max_key_or_0 d.
Proof.
  intros Hne. unfold max_key_or_0.
  assert (Hkeys : ∀ k, k ∈ (map_to_list d).*1 ↔ is_Some (d !! k)).
  { intros k. rewrite list_elem_of_fmap. split.
    - intros ([k' v] & -> & Hin). apply elem_of_map_to_list in Hin. now exists v.
    - intros [v Hv]. exists (k, v). split; [reflexivity|].
      now apply elem_of_map_to_list. }
  destruct ((map_to_list d).*1) as [|k0 ks] eqn:Hl.
  - exfalso. apply Hne. apply map_to_list_empty_iff.
    now destruct (map_to_list d).
  - destruct (fold_left_max_spec ks k0) as (Hle & Hall & Hin). split.
    + apply Hkeys. destruct Hin as [-> | Hin]; [now left | now right].
    + intros k Hk. apply Hkeys in Hk.
      apply elem_of_cons in Hk as [-> | Hk]; [exact Hle | now apply Hall].
Qed.

End CacheFacts.

(** X12: [dict(rows)] keeps, for every id, the name of the last row
    with that id; an id is absent from it exactly when no row has it;
    it has at most as many entries as there are rows, and exactly as
    many when the ids are pairwise distinct. The minimum-size test of
    the loaders counts rows, not entries. *)
Theorem dict_of_rows_last_row_wins (rows : list (Z * string)) :
  (∀ front back k v,
     rows = front ++ (k, v) :: back → k ∉ back.*1 →
     dict_of_rows rows !! k = Some v)
  ∧ (∀ k, dict_of_rows rows !! k = None ↔ k ∉ rows.*1)
  ∧ (size (dict_of_rows rows) ≤ length rows)%nat
  ∧ (NoDup rows.*1 → size (dict_of_rows rows) = length rows).
Proof.
  unfold dict_of_rows. split; [|split; [|split]].
  - intros front back k v -> Hk. rewrite fold_left_app. cbn [fold_left].
    rewrite fold_put_lookup_other by assumption. apply lookup_insert_eq.
  - intros k. rewrite fold_put_lookup_None. split; [now intros [_ H] | now split].
  - destruct (fold_put_size rows ∅) as [Hle _]. now rewrite map_size_empty in Hle.
  - intros Hnd. destruct (fold_put_size rows ∅) as [_ Heq].
    rewrite Heq; [now rewrite map_size_empty | assumption |].
    intros k _. apply lookup_empty.
Qed.

Lemma dict_of_rows_last_row_wins_witness :
  let rows := [(7, "old name"); (9, "other"); (7, "new name")] in
  rows = [(7, "old name"); (9, "other")] ++ (7, "new name") :: []
  ∧ (7 ∉ (@nil (Z * string)).*1)
  ∧ dict_of_rows rows !! 7 = Some "new name".
Proof.
  intros rows. split; [reflexivity|]. split; [apply not_elem_of_nil|].
  exact (proj1 (dict_of_rows_last_row_wins rows)
           [(7, "old name"); (9, "other")] [] 7 "new name"
           eq_refl (not_elem_of_nil _)).
Defined.

(** X13: [fetch_all_groups], from any state. It never touches the
    store, the trace or the section cache. When the query raises, the
    exception goes to the caller and the cache is as before. With fewer
    than 1000 rows the cache and its maximum are kept as they were
    (not cleared) and a warning is logged. With 1000 rows or more the
    cache is replaced by [dict(rows)] and [group_max_id_known] is a
    cached id that no cached id exceeds. *)
Theorem fetch_all_groups_outcome {B}
    (select_groups : result (list (Z * string))) (w : world B) :
  let r := fetch_all_groups select_groups w in
  (sphinx r.2 = sphinx w ∧ issued r.2 = issued w
   ∧ sections r.2 = sections w ∧ section_max_id_known r.2 = section_max_id_known w)
  ∧ (∀ e, select_groups = Raise e →
       r.1 = Raise e ∧ groups r.2 = groups w
       ∧ group_max_id_known r.2 = group_max_id_known w)
  ∧ (∀ rows, select_groups = Ok rows → (length rows < 1000)%nat →
       r.1 = Ok tt ∧ groups r.2 = groups w
       ∧ group_max_id_known r.2 = group_max_id_known w
       ∧ log r.2 = log w ++ [(INFO, FetchingGroups); (WARNING, FailedToFetchGroups)])
  ∧ (∀ rows, select_groups = Ok rows → (1000 ≤ length rows)%nat →
       r.1 = Ok tt ∧ groups r.2 = dict_of_rows rows
       ∧ is_Some (groups r.2 !! group_max_id_known r.2)
       ∧ ∀ k, is_Some (groups r.2 !! k) → k ≤ group_max_id_known r.2).
Proof.
  intros r. subst r.
  unfold fetch_all_groups, bind, lift, logger, set_groups.
  destruct select_groups as [rows|e]; cbn -[dict_of_rows max_key_or_0 size Nat.ltb].
  - destruct (length rows <? 1000)%nat eqn:Hlen;
      cbn -[dict_of_rows max_key_or_0 size Nat.ltb].
    + apply Nat.ltb_lt in Hlen.
      split; [now repeat split|]. split; [intros e [=]|]. split.
      * intros rows' [= <-] _. repeat split. now rewrite <- app_assoc.
      * intros rows' [= <-] Hge. lia.
    + pose proof (max_key_or_0_spec _ (dict_of_rows_nonempty _ _ Hlen)) as [Hin Hmax].
      apply Nat.ltb_ge in Hlen.
      split; [now repeat split|]. split; [intros e [=]|]. split.
      * intros rows' [= <-] Hlt. lia.
      * intros rows' [= <-] _. repeat split; assumption.
  - split; [now repeat split|]. split; [intros e' [= <-]; now repeat split|].
    split; intros rows [=].
Qed.

Lemma fetch_all_groups_outcome_witness :
  let w : world MapStore.index :=
    (fetch_all_groups (Ok (Sample.table_of 1000)) Sample.fresh).2 in
  let r := fetch_all_groups (Ok (Sample.table_of 999)) w in
  (length (Sample.table_of 999) < 1000)%nat
  ∧ groups r.2 = groups w
  ∧ r.1 = Ok tt.
Proof.
  intros w r.
  assert (Hlen : (length (Sample.table_of 999) < 1000)%nat) by (vm_compute; lia).
  split; [exact Hlen|].
  destruct (proj1 (proj2 (proj2
              (fetch_all_groups_outcome (Ok (Sample.table_of 999)) w)))
              (Sample.table_of 999) eq_refl Hlen) as (Hr & Hg & _).
  split; assumption.
Defined.

(** X14: [fetch_all_sections] behaves in the same way with a minimum of
    40 rows, and never touches the group cache. *)
Theorem fetch_all_sections_outcome {B}
    (select_sections : result (list (Z * string))) (w : world B) :
  let r := fetch_all_sections select_sections w in
  (sphinx r.2 = sphinx w ∧ issued r.2 = issued w
   ∧ groups r.2 = groups w ∧ group_max_id_known r.2 = group_max_id_known w)
  ∧ (∀ e, select_sections = Raise e →
       r.1 = Raise e ∧ sections r.2 = sections w
       ∧ section_max_id_known r.2 = section_max_id_known w)
  ∧ (∀ rows, select_sections = Ok rows → (length rows < 40)%nat →
       r.1 = Ok tt ∧ sections r.2 = sections w
       ∧ section_max_id_known r.2 = section_max_id_known w
       ∧ log r.2 = log w ++ [(INFO, FetchingSections); (WARNING, FailedToFetchSections)])
  ∧ (∀ rows, select_sections = Ok rows → (40 ≤ length rows)%nat →
       r.1 = Ok tt ∧ sections r.2 = dict_of_rows rows
       ∧ is_Some (sections r.2 !! section_max_id_known r.2)
       ∧ ∀ k, is_Some (sections r.2 !! k) → k ≤ section_max_id_known r.2).
Proof.
  intros r. subst r.
  unfold fetch_all_sections, bind, lift, logger, set_sections.
  destruct select_sections as [rows|e]; cbn -[dict_of_rows max_key_or_0 size Nat.ltb].
  - destruct (length rows <? 40)%nat eqn:Hlen;
      cbn -[dict_of_rows max_key_or_0 size Nat.ltb].
    + apply Nat.ltb_lt in Hlen.
      split; [now repeat split|]. split; [intros e [=]|]. split.
      * intros rows' [= <-] _. repeat split. now rewrite <- app_assoc.
      * intros rows' [= <-] Hge. lia.
    + pose proof (max_key_or_0_spec _ (dict_of_rows_nonempty _ _ Hlen)) as [Hin Hmax].
      apply Nat.ltb_ge in Hlen.
      split; [now repeat split|]. split; [intros e [=]|]. split.
      * intros rows' [= <-] Hlt. lia.
      * intros rows' [= <-] _. repeat split; assumption.
  - split; [now repeat split|]. split; [intros e' [= <-]; now repeat split|].
    split; intros rows [=].
Qed.

Lemma fetch_all_sections_outcome_witness :
  let r := fetch_all_sections (Ok (Sample.table_of 40)) Sample.fresh in
  (40 ≤ length (Sample.table_of 40))%nat
  ∧ sections r.2 !! 39 = Some "name"
  ∧ ∀ k, is_Some (sections r.2 !! k) → k ≤ section_max_id_known r.2.
Proof.
  intros r.
  assert (Hlen : (40 ≤ length (Sample.table_of 40))%nat) by (vm_compute; lia).
  split; [exact Hlen|]. split; [reflexivity|].
  destruct (proj2 (proj2 (proj2
              (fetch_all_sections_outcome (Ok (Sample.table_of 40)) Sample.fresh)))
              (Sample.table_of 40) eq_refl Hlen) as (_ & _ & _ & Hmax).
  exact Hmax.
Defined.

(** X15: the script never ends on an exception: whatever [startup]
    raises is caught by the [__main__] block. When opening the pool or
    one of the two cache queries raises [e], the loop is not entered,
    nothing has been issued, and the last log line is the fatal error
    [e]. *)
Theorem fatal_errors_are_logged {B} (cur_execute : executor B) (T : Z)
    (create_pool : result unit)
    (select_groups select_sections : result (list (Z * string)))
    (stream : list binlog_event) (b : B) (e : exn) :
  let r := run_script cur_execute T create_pool select_groups select_sections
                      stream (initial_world b) in
  (∃ exit, r.1 = Ok exit)
  ∧ (create_pool = Raise e
     ∨ (create_pool = Ok tt ∧ probe_ok cur_execute b = true
        ∧ (select_groups = Raise e
           ∨ ((∃ rows, select_groups = Ok rows) ∧ select_sections = Raise e))) →
     r.1 = Ok None
     ∧ ¬ entered_consume_loop r.2
     ∧ issued r.2 = []
     ∧ ∃ l, log r.2 = l ++ [(ERROR, FatalError e)]).
Proof.
  intros r.
  pose proof (startup_initial cur_execute T create_pool select_groups
                select_sections stream b) as H.
  cbv zeta in H.
  assert (Hrun : r = match startup cur_execute T create_pool select_groups
                             select_sections stream (initial_world b) with
                     | (Ok x, w') => (Ok (Some x), w')
                     | (Raise e', w') =>
                         (Ok None, with_log (log w' ++ [(ERROR, FatalError e')]) w')
                     end).
  { subst r. unfold run_script, try_except, bind, logger, ret.
    destruct (startup _ _ _ _ _ _ _) as [[x|e'] w']; reflexivity. }
  rewrite Hrun. clear Hrun r.
  destruct (startup _ _ _ _ _ _ _) as [[x|e'] w']; cbn [fst snd] in *.
  - split; [eauto|].
    intros [-> | (-> & Hp & [-> | [[rows ->] ->]])]; rewrite ?Hp in H.
    + now destruct H as [[=] _].
    + now destruct H as [[=] _].
    + now destruct H as (_ & [=] & _).
  - split; [eauto|].
    assert (Hfatal : e' = e → (¬ entered_consume_loop w' ∧ issued w' = []) →
              @Ok (option startup_exit) None = Ok None
              ∧ ¬ entered_consume_loop
                    (with_log (log w' ++ [(ERROR, FatalError e')]) w')
              ∧ issued (with_log (log w' ++ [(ERROR, FatalError e')]) w') = []
              ∧ ∃ l, log (with_log (log w' ++ [(ERROR, FatalError e')]) w')
                     = l ++ [(ERROR, FatalError e)]).
    { intros -> [Hne Hiss]. split; [reflexivity|]. split; [|split].
      - unfold entered_consume_loop. cbn. intros Hin.
        apply in_app_or in Hin as [Hin | [Hin | []]]; [now apply Hne | discriminate].
      - exact Hiss.
      - now exists (log w'). }
    intros [-> | (-> & Hp & [-> | [[rows ->] ->]])]; rewrite ?Hp in H.
    + destruct H as ([= ->] & Hab & _). now apply Hfatal.
    + destruct H as ([= ->] & Hab & _). now apply Hfatal.
    + destruct H as (_ & [= ->] & Hab & _). now apply Hfatal.
Qed.

Lemma fatal_errors_are_logged_witness :
  let r := run_script MapStore.cur_execute Sample.threshold (Ok tt)
             (Raise (DatabaseError 1045)) (Ok (Sample.table_of 40))
             Sample.scenario (initial_world ∅) in
  probe_ok MapStore.cur_execute ∅ = true
  ∧ r.1 = Ok None
  ∧ issued r.2 = [].
Proof.
  intros r. split; [reflexivity|].
  destruct (proj2 (fatal_errors_are_logged MapStore.cur_execute Sample.threshold
                     (Ok tt) (Raise (DatabaseError 1045)) (Ok (Sample.table_of 40))
                     Sample.scenario ∅ (DatabaseError 1045))
              (or_intror (conj eq_refl (conj eq_refl (or_introl eq_refl)))))
    as (Hr & _ & Hiss & _).
  split; assumption.
Defined.

(** X16: the probe never raises and is not a writer command: it
    returns [True] exactly when the [SELECT] runs and yields a count,
    logs one line, and leaves the trace and both caches alone. A driver
    error and an empty result both give [False]. *)
Theorem probe_returns_a_verdict {B} (cur_execute : executor B) (w : world B) :
  let r := test_sphinx_connection cur_execute w in
  r.1 = Ok (probe_ok cur_execute (sphinx w))
  ∧ issued r.2 = issued w
  ∧ groups r.2 = groups w
  ∧ sections r.2 = sections w
  ∧ (∃ line, log r.2 = log w ++ [line])
  ∧ (∀ e, cur_execute SelectCount [] (sphinx w) = inl e →
       r.1 = Ok false ∧ sphinx r.2 = sphinx w
       ∧ log r.2 = log w ++ [(ERROR, ConnectionTestFailed e)])
  ∧ (∀ b, cur_execute SelectCount [] (sphinx w) = inr (b, []) →
       r.1 = Ok false
       ∧ log r.2 = log w ++ [(ERROR, ConnectionTestFailed TypeError)]).
Proof.
  intros r. subst r.
  unfold test_sphinx_connection, try_except, bind, cursor_execute, probe_ok.
  destruct (cur_execute SelectCount [] (sphinx w))
    as [e | [b [|[|count row] rs]]]; cbn.
  all: do 4 (split; [reflexivity|]); split; [eauto|]; split.
  all: intros x Hx; try discriminate Hx; inversion Hx; subst; now repeat split.
Qed.

Lemma probe_returns_a_verdict_witness :
  let r := test_sphinx_connection Sample.unreachable (initial_world tt) in
  Sample.unreachable SelectCount [] tt = inl (DatabaseError 2003)
  ∧ r.1 = Ok false
  ∧ log r.2 = [(ERROR, ConnectionTestFailed (DatabaseError 2003))].
Proof.
  intros r. split; [reflexivity|].
  destruct (proj1 (proj2 (proj2 (proj2 (proj2 (proj2
              (probe_returns_a_verdict Sample.unreachable (initial_world tt)))))))
              (DatabaseError 2003) eq_refl) as (Hr & _ & Hlog).
  split; assumption.
Defined.

(** X17: [main] never reads or writes the two reference caches, and
    only appends to the log, starting with its own first line. *)
Theorem main_keeps_caches {B} (cur_execute : executor B) (T : Z)
    (stream : list binlog_event) (w : world B) :
  let w' := (main cur_execute T stream w).2 in
  groups w' = groups w
  ∧ sections w' = sections w
  ∧ ∃ l, log w' = log w ++ (INFO, StartingBinlogStreamReader) :: l.
Proof.
  intros w'. subst w'.
  destruct (log_grows_main cur_execute T stream w) as (_ & Hg & Hs).
  split; [exact Hg|]. split; [exact Hs|].
  unfold main, bind, logger. cbn.
  match goal with |- context [for_each ?body stream ?w1] =>
    destruct (log_grows_for_each body stream
                (log_grows_handle_event cur_execute T) w1) as ([l Hl] & _)
  end.
  exists l. rewrite Hl. cbn. now rewrite <- app_assoc.
Qed.

Lemma main_issued {B} (cur_execute : executor B) (T : Z)
    (stream : list binlog_event) (w : world B) :
  issued (main cur_execute T stream w).2
  = issued w ++ map command_of (mutations T stream).
Proof. unfold main, bind, logger. cbn. now rewrite for_each_events_issued. Qed.

(** X18: when the pool opens, the probe succeeds and both tables reach
    their minimum, [startup] loads both caches from the rows and then
    runs [main] on the whole stream: it returns through [main], and the
    commands issued are exactly those [main] issues for that stream. *)
Theorem startup_then_main {B} (cur_execute : executor B) (T : Z)
    (grows srows : list (Z * string)) (stream : list binlog_event) (b : B) :
  probe_ok cur_execute b = true →
  (1000 ≤ length grows)%nat →
  (40 ≤ length srows)%nat →
  let r := startup cur_execute T (Ok tt) (Ok grows) (Ok srows)
                   stream (initial_world b) in
  r.1 = Ok AfterMain
  ∧ groups r.2 = dict_of_rows grows
  ∧ sections r.2 = dict_of_rows srows
  ∧ issued r.2 = issued (main cur_execute T stream (initial_world b)).2.
Proof.
  intros Hp Hg Hs r.
  apply Nat.ltb_ge in Hg, Hs.
  pose proof (startup_initial cur_execute T (Ok tt) (Ok grows) (Ok srows) stream b) as H.
  cbv zeta in H. fold r in H. cbn match in H. rewrite Hp, Hg, Hs in H.
  cbn [orb] in H. destruct H as (Hgr & Hsec & Hr & _).
  split; [exact Hr|]. split; [exact Hgr|]. split; [exact Hsec|].
  rewrite main_issued. subst r.
  unfold startup, init_sphinx_pool, fetch_all_groups, fetch_all_sections,
    caches_loaded, set_groups, set_sections, bind, lift, logger, ret,
    initial_world.
  cbn -[main dict_of_rows max_key_or_0 bool_decide size Nat.ltb].
  match goal with |- context [test_sphinx_connection _ ?w] =>
    destruct (test_sphinx_connection_eq cur_execute w) as (b' & m & -> & _)
  end.
  cbn -[main dict_of_rows max_key_or_0 bool_decide size Nat.ltb].
  rewrite Hp, Hg. cbn -[main dict_of_rows max_key_or_0 bool_decide size Nat.ltb].
  rewrite Hs. cbn -[main dict_of_rows max_key_or_0 bool_decide size Nat.ltb].
  rewrite (bool_decide_eq_false_2 (dict_of_rows grows = ∅))
    by (eapply dict_of_rows_nonempty; eassumption).
  rewrite (bool_decide_eq_false_2 (dict_of_rows srows = ∅))
    by (eapply dict_of_rows_nonempty; eassumption).
  cbn -[main dict_of_rows max_key_or_0 bool_decide size Nat.ltb].
  match goal with |- context [main _ _ stream ?w] =>
    pose proof (main_issued cur_execute T stream w) as Hiss;
    destruct (main_never_raises cur_execute T stream w) as [[] Hret];
    destruct (main cur_execute T stream w) as [r1 w1]
  end.
  cbn in Hret, Hiss. subst r1. cbn. exact Hiss.
Qed.

Lemma startup_then_main_witness :
  let r := startup MapStore.cur_execute 60 (Ok tt)
             (Ok (Sample.table_of 1000)) (Ok (Sample.table_of 40))
             Sample.scenario (initial_world ∅) in
  probe_ok MapStore.cur_execute ∅ = true
  ∧ (1000 ≤ length (Sample.table_of 1000))%nat
  ∧ (40 ≤ length (Sample.table_of 40))%nat
  ∧ r.1 = Ok AfterMain
  ∧ map fst (issued r.2) = [ReplaceInto; DeleteFrom].
Proof.
  intros r.
  assert (Hg : (1000 ≤ length (Sample.table_of 1000))%nat) by (vm_compute; lia).
  assert (Hs : (40 ≤ length (Sample.table_of 40))%nat) by (vm_compute; lia).
  split; [reflexivity|]. split; [exact Hg|]. split; [exact Hs|].
  destruct (startup_then_main MapStore.cur_execute 60 (Sample.table_of 1000)
              (Sample.table_of 40) Sample.scenario ∅ eq_refl Hg Hs)
    as (Hr & _ & _ & Hiss).
  split; [exact Hr|]. fold r in Hiss. rewrite Hiss. reflexivity.
Defined.
